(** * judge/utils/problems.py: cached problem queries of the online judge

    A shallow embedding of the query helpers of [judge/utils/problems.py]
    and the properties that the specification states about them.

    The helpers read two tables (problems and submissions) through the
    ORM, keep their results in the process-wide cache under string keys
    with a time-to-live, and, for the recommender, ask an external
    similarity model.  The embedding threads one [World] (tables, cache,
    clock, settings, and the log of queries issued) through a small
    state-and-exception monad. *)

From Stdlib Require Import ZArith QArith Qcanon Reals Lra Lia Ascii.
From stdpp Require Import base numbers list gmap strings pretty sorting.

Local Open Scope Z_scope.

(** ** Data model *)

(** Modelled from the spec: the declaration of the verdict column lives in
    [judge.models], which is not among the sources; the data model fixes
    the enumerated set of ten verdict codes. *)
Inductive result_code :=
  AC | WA | CE | TLE | MLE | OLE | IR | RTE | AB | IE.

#[global] Instance result_code_eq_dec : EqDecision result_code.
Proof. solve_decision. Defined.

(** The text stored in the column, as the source compares against. *)
Definition result_str (c : result_code) : string :=
  match c with
  | AC => "AC" | WA => "WA" | CE => "CE" | TLE => "TLE" | MLE => "MLE"
  | OLE => "OLE" | IR => "IR" | RTE => "RTE" | AB => "AB" | IE => "IE"
  end.

(** Modelled from the spec: the tables are declared in [judge.models],
    which is not among the sources.  A problem has an integer id, a code, a
    name, a points value, a visibility flag and an acceptance rate; a
    submission references a user and a problem and carries a verdict, the
    points achieved and a creation time.

    Stored point values and rates are finite floating-point numbers; every
    such number is a rational, and the code only compares them, so they are
    kept as canonical rationals with exact comparison. *)
Module Problem.
Record t := mk {
  id : Z;
  code : string;
  name : string;
  points : Qc;
  is_public : bool;
  ac_rate : Qc
}.
End Problem.

Module Submission.
Record t := mk {
  id : Z;
  user : Z;          (* foreign key: Profile.id *)
  problem : Z;       (* foreign key: Problem.id *)
  result : result_code;
  points : Qc;
  date : Z           (* seconds *)
}.
End Submission.

Module Profile.
Record t := mk {
  id : Z;
  user : Z           (* the account the profile belongs to *)
}.
End Profile.

(** One entry of the mapping built by [user_attempted_ids]. *)
Record attempt := mk_attempt {
  achieved_points : Qc;
  max_points : Qc;
  last_submission : Z;
  attempt_code : string;
  attempt_name : string
}.

(** A problem row of the hot-problems query with its annotations. *)
Record hot_row := mk_hot_row {
  hot_problem : Problem.t;
  unique_user_count : Z;
  submission_volume : Z;
  ac_volume : Z;
  ordering : option R   (* [None] is the NULL of a division by zero *)
}.

(** Objects that the helpers return and store in the cache. *)
Inductive value :=
  | VIdSet (s : gset Z)
  | VAttempted (m : gmap Z attempt)
  | VHot (rows : list hot_row)
  | VProblems (ps : list Problem.t).

Record cache_entry := mk_entry { entry_value : value; entry_expires : Z }.

Inductive query :=
  | DbQuery (table : string)
  | ModelQuery (metric : string).

Record World := mk_world {
  problems : list Problem.t;
  submissions : list Submission.t;
  cache : gmap string cache_entry;
  clock : Z;                          (* timezone.now(), in seconds *)
  ML_OUTPUT_PATH : option string;     (* settings.ML_OUTPUT_PATH *)
  queries : list query                (* queries issued so far, newest first *)
}.

Definition set_cache (c : gmap string cache_entry) (w : World) : World :=
  mk_world (problems w) (submissions w) c (clock w) (ML_OUTPUT_PATH w) (queries w).

Definition push_query (q : query) (w : World) : World :=
  mk_world (problems w) (submissions w) (cache w) (clock w) (ML_OUTPUT_PATH w)
           (q :: queries w).

(** ** Effects: state and exceptions *)

Inductive exn :=
  | ValueError (msg : string)
  | AssertionError (msg : string)
  | TypeError
  | FieldError
  | DoesNotExist.

Inductive outcome (A : Type) :=
  | Ok (a : A)
  | Raise (e : exn).
Arguments Ok {A} a.
Arguments Raise {A} e.

Definition M (A : Type) : Type := World → outcome A * World.

Definition ret {A} (a : A) : M A := λ w, (Ok a, w).
Definition raise {A} (e : exn) : M A := λ w, (Raise e, w).
Definition bind {A B} (c : M A) (k : A → M B) : M B :=
  λ w, match c w with
       | (Ok a, w') => k a w'
       | (Raise e, w') => (Raise e, w')
       end.

Notation "'let*' x ':=' c 'in' k" := (bind c (λ x, k))
  (at level 10, x pattern, c at level 100, k at level 200).

(** [cache.get]: an entry past its expiry reads as absent. *)
Definition cache_lookup (key : string) (w : World) : option value :=
  match cache w !! key with
  | Some e => if bool_decide (clock w < entry_expires e) then Some (entry_value e) else None
  | None => None
  end.

Definition cache_get (key : string) : M (option value) :=
  λ w, (Ok (cache_lookup key w), w).

(** [cache.set key value ttl] *)
Definition cache_set (key : string) (v : value) (ttl : Z) : M unit :=
  λ w, (Ok tt, set_cache (<[key := mk_entry v (clock w + ttl)]> (cache w)) w).

(** Evaluating a queryset: one query is sent, the rows come back. *)
Definition db_select {A} (table : string) (rows : World → A) : M A :=
  λ w, (Ok (rows w), push_query (DbQuery table) w).

(** ** The ORM fragments the helpers use *)

(** Following the foreign key [submission.problem] (an inner join). *)
Definition Problem_by_id (w : World) (i : Z) : option Problem.t :=
  List.find (λ p, bool_decide (Problem.id p = i)) (problems w).

Definition problem_of (w : World) (s : Submission.t) : option Problem.t :=
  Problem_by_id w (Submission.problem s).

(** Cache keys are built from decimal numbers separated by colons. *)
Fixpoint colon_free (s : string) : Prop :=
  match s with
  | EmptyString => True
  | String c s' => c ≠ ":"%char ∧ colon_free s'
  end.

(** ** user_completed_ids *)

Definition user_complete_key (profile : Profile.t) : string :=
  "user_complete:" +:+ pretty (Profile.id profile).

(** [Submission.objects.filter(user=profile, result="AC",
      points=F("problem__points"))] *)
Definition completed_filter (w : World) (profile : Profile.t) (s : Submission.t) : Prop :=
  Submission.user s = Profile.id profile
  ∧ Submission.result s = AC
  ∧ Problem.points <$> problem_of w s = Some (Submission.points s).

(** [.values_list("problem_id", flat=True).distinct()] *)
Definition completed_query (profile : Profile.t) (w : World) : list Z :=
  remove_dups (Submission.problem <$> filter (completed_filter w profile) (submissions w)).

Definition user_completed_ids (profile : Profile.t) : M value :=
  let key := user_complete_key profile in
  let* result := cache_get key in
  match result with
  | None =>
      let* ids := db_select "submission" (completed_query profile) in
      let result := VIdSet (list_to_set ids) in
      let* _ := cache_set key result 86400 in
      ret result
  | Some result => ret result
  end.

(** ** user_attempted_ids *)

Definition user_attempted_key (profile : Profile.t) : string :=
  "user_attempted:" +:+ pretty (Profile.id profile).

Definition Qc_max (a b : Qc) : Qc := if decide (a ≤ b)%Qc then b else a.

(** The aggregate [Max]: NULL ([None]) over no rows. *)
Fixpoint Max_points (l : list Qc) : option Qc :=
  match l with
  | [] => None
  | x :: l' => Some (match Max_points l' with Some m => Qc_max x m | None => x end)
  end.

Fixpoint Max_id (l : list Z) : option Z :=
  match l with
  | [] => None
  | x :: l' => Some (match Max_id l' with Some m => Z.max x m | None => x end)
  end.

(** [Submission.objects.filter(user=profile)], joined with its problem. *)
Definition user_submissions (w : World) (profile : Profile.t) : list Submission.t :=
  filter (λ s, Submission.user s = Profile.id profile ∧ is_Some (problem_of w s))
         (submissions w).

(** One row per problem the profile has submitted to:
    [.values_list("problem__id", "problem__points", "problem__code",
    "problem__name").annotate(points=Max("points"), last_submission=Max("id"))
    .filter(points__lt=F("problem__points"))]. *)
Definition attempted_row (w : World) (subs : list Submission.t) (pid : Z)
  : option (Z * attempt) :=
  let group := filter (λ s, Submission.problem s = pid) subs in
  match Problem_by_id w pid,
        Max_points (Submission.points <$> group),
        Max_id (Submission.id <$> group) with
  | Some p, Some pts, Some last =>
      if bool_decide (pts < Problem.points p)%Qc
      then Some (pid, mk_attempt pts (Problem.points p) last
                                 (Problem.code p) (Problem.name p))
      else None
  | _, _, _ => None
  end.

Definition attempted_query (profile : Profile.t) (w : World) : list (Z * attempt) :=
  let subs := user_submissions w profile in
  omap (attempted_row w subs) (remove_dups (Submission.problem <$> subs)).

(** A dict comprehension: later rows overwrite earlier ones. *)
Definition dict_of {V} (rows : list (Z * V)) : gmap Z V :=
  foldl (λ m kv, <[kv.1 := kv.2]> m) ∅ rows.

Definition user_attempted_ids (profile : Profile.t) : M value :=
  let key := user_attempted_key profile in
  let* result := cache_get key in
  match result with
  | None =>
      let* rows := db_select "submission" (attempted_query profile) in
      let result := VAttempted (dict_of rows) in
      let* _ := cache_set key result 86400 in
      ret result
  | Some result => ret result
  end.

(** ** get_result_data *)

Record category := mk_category {
  cat_code : string;
  cat_name : string;
  cat_count : Z
}.

Record result_data := mk_result_data {
  categories : list category;
  total : Z
}.

(** [results[k]] on a [defaultdict(int)]: a missing key reads as 0 and is
    stored with that value. *)
Definition defaultdict_get (k : string) (results : gmap string Z) : Z * gmap string Z :=
  match results !! k with
  | Some v => (v, results)
  | None => (0, <[k := 0]> results)
  end.

(** [sum(results.values())] *)
Definition sum_values (results : gmap string Z) : Z :=
  map_fold (λ _ v acc, acc + v) 0 results.

(** The dict display is evaluated left to right: the ten lookups, then the
    sum over the values. *)
Definition _get_result_data (results : gmap string Z) : result_data :=
  let '(ac, results) := defaultdict_get "AC" results in
  let '(wa, results) := defaultdict_get "WA" results in
  let '(ce, results) := defaultdict_get "CE" results in
  let '(tle, results) := defaultdict_get "TLE" results in
  let '(mle, results) := defaultdict_get "MLE" results in
  let '(ole, results) := defaultdict_get "OLE" results in
  let '(ir, results) := defaultdict_get "IR" results in
  let '(rte, results) := defaultdict_get "RTE" results in
  let '(ab, results) := defaultdict_get "AB" results in
  let '(ie, results) := defaultdict_get "IE" results in
  {| categories :=
       [ mk_category "AC" "Accepted" ac;
         mk_category "WA" "Wrong" wa;
         mk_category "CE" "Compile Error" ce;
         mk_category "TLE" "Timeout" tle;
         mk_category "ERR" "Error" (mle + ole + ir + rte + ab + ie) ];
     total := sum_values results |}.

(** [.values("result").annotate(count=Count("result"))
    .values_list("result", "count")], read into a dict: one entry per
    verdict that occurs, with the number of its rows. *)
Definition result_counts (subs : list Submission.t) : gmap string Z :=
  foldr (λ s m, let k := result_str (Submission.result s) in
                <[k := default 0 (m !! k) + 1]> m) ∅ subs.

(** The value of a keyword filter. *)
Inductive lookup_value :=
  | LInt (z : Z)
  | LStr (s : string).

(** [Submission.objects.filter] applied to the keyword arguments: a
    keyword names a column of the table; any other keyword is a
    [FieldError]. *)
Definition keyword_filter (k : string) (v : lookup_value)
  : option (Submission.t → bool) :=
  match v with
  | LInt z =>
      if decide (k = "id") then Some (λ s, bool_decide (Submission.id s = z))
      else if decide (k = "user" ∨ k = "user_id")
           then Some (λ s, bool_decide (Submission.user s = z))
      else if decide (k = "problem" ∨ k = "problem_id")
           then Some (λ s, bool_decide (Submission.problem s = z))
      else None
  | LStr r =>
      if decide (k = "result")
      then Some (λ s, bool_decide (result_str (Submission.result s) = r))
      else None
  end.

Fixpoint filter_kwargs (kwargs : list (string * lookup_value))
    (subs : list Submission.t) : outcome (list Submission.t) :=
  match kwargs with
  | [] => Ok subs
  | (k, v) :: kwargs' =>
      match keyword_filter k v with
      | Some f => filter_kwargs kwargs' (List.filter f subs)
      | None => Raise FieldError
      end
  end.

Definition lift_outcome {A} (o : outcome A) : M A := λ w, (o, w).

(** [args] are the positional arguments (querysets, given by their rows),
    [kwargs] the keyword arguments.  [**kwargs] always binds a dict, so the
    object tested by [kwargs is not None] is [Some kwargs]. *)
Definition get_result_data (args : list (list Submission.t))
    (kwargs : list (string * lookup_value)) : M result_data :=
  let* submissions :=
    match args with
    | args_0 :: _ =>
        if decide (kwargs ≠ [])
        then raise (ValueError "Can't pass both queryset and keyword filters")
        else ret args_0
    | [] =>
        match Some kwargs with
        | Some kwargs => λ w, lift_outcome (filter_kwargs kwargs (submissions w)) w
        | None => λ w, ret (submissions w) w
        end
    end in
  let* raw := db_select "submission" (λ _, result_counts submissions) in
  ret (_get_result_data raw).

(** ** hot_problems *)

Definition hot_problems_key (duration limit : Z) : string :=
  "hot_problems:" +:+ pretty duration +:+ ":" +:+ pretty limit.

(** Modelled from the spec: [Problem.get_public_problems] is declared in
    [judge.models], which is not among the sources; it yields the publicly
    visible problems. *)
Definition get_public_problems (w : World) : list Problem.t :=
  filter (λ p, Problem.is_public p = true) (problems w).

(** The rows joined to a problem by
    [.filter(submission__date__gt=timezone.now() - duration)]; the later
    annotations aggregate over this same join.  [duration] is in whole
    seconds. *)
Definition window_submissions (w : World) (duration : Z) (p : Problem.t)
  : list Submission.t :=
  filter (λ s, Submission.problem s = Problem.id p
               ∧ clock w - duration < Submission.date s)
         (submissions w).

(** [Case(When(submission__result=..., then=1), ...)]: the first matching
    branch, NULL without one. *)
Fixpoint Case (whens : list (result_code * Z)) (s : Submission.t) : option Z :=
  match whens with
  | [] => None
  | (r, v) :: whens' =>
      if decide (Submission.result s = r) then Some v else Case whens' s
  end.

(** [Count(expr)] counts the rows where the expression is not NULL. *)
Definition Count {A} (expr : Submission.t → option A) (rows : list Submission.t) : Z :=
  Z.of_nat (length (filter (λ s, is_Some (expr s)) rows)).

(** [Count("submission__user", distinct=True)] *)
Definition Count_distinct_user (rows : list Submission.t) : Z :=
  Z.of_nat (length (remove_dups (Submission.user <$> rows))).

(** A candidate with the three count annotations. *)
Record annotated := mk_annotated {
  ann_problem : Problem.t;
  ann_unique_user_count : Z;
  ann_submission_volume : Z;
  ann_ac_volume : Z
}.

Definition annotate (w : World) (duration : Z) (p : Problem.t) : annotated :=
  let rows := window_submissions w duration p in
  {| ann_problem := p;
     ann_unique_user_count := Count_distinct_user rows;
     ann_submission_volume :=
       Count (Case [(AC, 1); (WA, 1); (IR, 1); (RTE, 1); (TLE, 1); (OLE, 1)]) rows;
     ann_ac_volume := Count (Case [(AC, 1)]) rows |}.

(** The grouped join: one row per public problem that has a submission in
    the window. *)
Definition hot_candidates (w : World) (duration : Z) : list annotated :=
  annotate w duration
    <$> filter (λ p, window_submissions w duration p ≠ []) (get_public_problems w).

(** [qs0]: the distinct-submitter counts, largest first. *)
Definition hot_qs0 (duration : Z) (w : World) : list Z :=
  merge_sort (flip Z.le) (ann_unique_user_count <$> hot_candidates w duration).

(** [max(mx / 3.0, 1)] *)
Definition popularity_floor (mx : Z) : Qc :=
  Qc_max (Qc_of_Z mx / Qc_of_Z 3)%Qc (Qc_of_Z 1).

(** Expressions over the columns of a row, as the ORM builds them from
    [F] objects and Python numbers; the database evaluates them. *)
Inductive expr :=
  | Value (x : R)
  | F (column : string)
  | Add (a b : expr)
  | Mul (a b : expr)
  | Div (a b : expr)
  | Pow (a b : expr).

Definition column (c : annotated) (name : string) : option R :=
  if decide (name = "points") then Some (Q2R (Problem.points (ann_problem c)))
  else if decide (name = "ac_rate") then Some (Q2R (Problem.ac_rate (ann_problem c)))
  else if decide (name = "unique_user_count") then Some (IZR (ann_unique_user_count c))
  else if decide (name = "submission_volume") then Some (IZR (ann_submission_volume c))
  else if decide (name = "ac_volume") then Some (IZR (ann_ac_volume c))
  else None.

(** Evaluation in exact real arithmetic.  [None] is NULL: it propagates
    through every operator, and a division by zero yields it, as on MySQL
    (on a backend that raises an error instead there is no value either).
    [Pow] is the database's power function on a positive base. *)
Fixpoint eval (c : annotated) (e : expr) : option R :=
  match e with
  | Value x => Some x
  | F name => column c name
  | Add a b =>
      match eval c a, eval c b with
      | Some x, Some y => Some (x + y)%R
      | _, _ => None
      end
  | Mul a b =>
      match eval c a, eval c b with
      | Some x, Some y => Some (x * y)%R
      | _, _ => None
      end
  | Div a b =>
      match eval c a, eval c b with
      | Some x, Some y => if Req_dec_T y 0%R then None else Some (x / y)%R
      | _, _ => None
      end
  | Pow a b =>
      match eval c a, eval c b with
      | Some x, Some y => Some (Rpower x y)
      | _, _ => None
      end
  end.

(** [math.e] *)
Definition e : R := exp 1.

(** [0.02 * F("points") * (0.4 * F("ac_volume") / F("submission_volume")
      + 0.6 * F("ac_rate")) + 100 * e ** (F("unique_user_count") / mx)],
    with Python's precedence and left association. *)
Definition ordering_expr (mx : Z) : expr :=
  Add (Mul (Mul (Value 0.02%R) (F "points"))
           (Add (Div (Mul (Value 0.4%R) (F "ac_volume")) (F "submission_volume"))
                (Mul (Value 0.6%R) (F "ac_rate"))))
      (Mul (Value 100%R)
           (Pow (Value e) (Div (F "unique_user_count") (Value (IZR mx))))).

Definition with_ordering (mx : Z) (c : annotated) : hot_row :=
  {| hot_problem := ann_problem c;
     unique_user_count := ann_unique_user_count c;
     submission_volume := ann_submission_volume c;
     ac_volume := ann_ac_volume c;
     ordering := eval c (ordering_expr mx) |}.

(** Descending order on the annotation; NULL sorts below every number,
    as MySQL orders it. *)
Definition ordering_ge (a b : option R) : Prop :=
  match a, b with
  | _, None => True
  | None, Some _ => False
  | Some x, Some y => (y <= x)%R
  end.

#[global] Instance ordering_ge_dec : RelDecision ordering_ge.
Proof.
  intros [x|] [y|]; simpl; try (left; exact I); try (right; tauto).
  apply Rle_dec.
Defined.

Definition row_ge (r1 r2 : hot_row) : Prop :=
  ordering_ge (ordering r1) (ordering r2).

#[global] Instance row_ge_dec : RelDecision row_ge.
Proof. intros r1 r2. unfold row_ge. apply _. Defined.

(** A queryset slice [qs[:limit]] with a non-negative bound. *)
Definition slice_to {A} (limit : Z) (l : list A) : list A :=
  take (Z.to_nat limit) l.

(** The final queryset: HAVING, the score annotation, ORDER BY, LIMIT. *)
Definition hot_query (duration limit mx : Z) (w : World) : list hot_row :=
  let qs := hot_candidates w duration in
  let qs := filter (λ c, (popularity_floor mx < Qc_of_Z (ann_unique_user_count c))%Qc) qs in
  let qs := with_ordering mx <$> qs in
  slice_to limit (merge_sort row_ge qs).

(** The two querysets are lazy: [qs0] is evaluated by [not qs0], the
    slice of a queryset refuses a negative bound when it is taken, and
    the final queryset is evaluated when the cache pickles it. *)
Definition hot_problems (duration limit : Z) : M value :=
  let cache_key := hot_problems_key duration limit in
  let* qs := cache_get cache_key in
  match qs with
  | None =>
      let* qs0 := db_select "problem" (hot_qs0 duration) in
      match qs0 with
      | [] => ret (VHot [])
      | qs0_0 :: _ =>
          let mx := qs0_0 in
          if decide (limit < 0)
          then raise (AssertionError "Negative indexing is not supported.")
          else
            let* qs := db_select "problem" (hot_query duration limit mx) in
            let* _ := cache_set cache_key (VHot qs) 900 in
            ret (VHot qs)
      end
  | Some qs => ret qs
  end.

(** ** What happens around the helpers *)

(** Time passes. *)
Definition tick (dt : Z) (w : World) : World :=
  mk_world (problems w) (submissions w) (cache w) (clock w + dt)
           (ML_OUTPUT_PATH w) (queries w).

(** The judge stores a graded submission. *)
Definition store_submission (s : Submission.t) (w : World) : World :=
  mk_world (problems w) (s :: submissions w) (cache w) (clock w)
           (ML_OUTPUT_PATH w) (queries w).

(** Other parts of the site rewrite the tables. *)
Definition set_tables (ps : list Problem.t) (ss : list Submission.t) (w : World) : World :=
  mk_world ps ss (cache w) (clock w) (ML_OUTPUT_PATH w) (queries w).

(** ** get_related_problems *)

Definition related_problems_key (profile : Profile.t) (problem : Problem.t) : string :=
  "related_problems:" +:+ pretty (Profile.id profile) +:+ ":" +:+ pretty (Problem.id problem).

(** Truth value of [settings.ML_OUTPUT_PATH]: unset or empty is false. *)
Definition path_set (p : option string) : bool :=
  match p with
  | Some s => bool_decide (s ≠ "")
  | None => false
  end.

Definition read_ML_OUTPUT_PATH : M (option string) :=
  λ w, (Ok (ML_OUTPUT_PATH w), w).

Definition read_clock : M Z := λ w, (Ok (clock w), w).

(** What [id__in=...] accepts: the ids of a set, the keys of a dict. *)
Definition id__in (v : value) : outcome (gset Z) :=
  match v with
  | VIdSet s => Ok s
  | VAttempted m => Ok (dom m)
  | VHot _ | VProblems _ => Raise TypeError
  end.

(** [results[:limit]] on a Python list: a negative bound counts from the
    end. *)
Definition list_slice_to {A} (limit : Z) (l : list A) : list A :=
  if decide (0 ≤ limit) then take (Z.to_nat limit) l
  else take (Z.to_nat (Z.of_nat (length l) + limit)) l.

(** [Problem.objects.get(id=i)] *)
Definition Problem_get (i : Z) : M Problem.t :=
  let* found := db_select "problem" (λ w, Problem_by_id w i) in
  match found with
  | Some p => ret p
  | None => raise DoesNotExist
  end.

Fixpoint mapM {A B} (f : A → M B) (l : list A) : M (list B) :=
  match l with
  | [] => ret []
  | x :: l' =>
      let* y := f x in
      let* ys := mapM f l' in
      ret (y :: ys)
  end.

(** Modelled from the spec: the two metric selectors of the similarity
    model, [CollabFilter.DOT] and [CollabFilter.COSINE], declared in
    [judge.ml.collab_filter], which is not among the sources. *)
Definition DOT : string := "dot".
Definition COSINE : string := "cosine".

Section Recommender.
(** What the helper takes from outside this module: the visibility rule
    of [Problem.get_visible_problems] ([judge.models]), the similarity
    model of [judge.ml.collab_filter], Python's seeded shuffle, and the
    formatting of today's date. *)
Variable is_visible : Z → Problem.t → bool.
Variable problem_neighbors : Problem.t → list Z → string → Z → list (Qc * Z).
Variable shuffle : string → list Z → list Z.
Variable strftime_dmY : Z → string.

(** [Problem.get_visible_problems(profile.user).values_list("id", flat=True)
    .exclude(id__in=completed).exclude(id=problem.id)] *)
Definition related_problemset (profile : Profile.t) (problem : Problem.t)
    (completed : gset Z) (w : World) : list Z :=
  filter (λ i, i ≠ Problem.id problem)
    (filter (λ i, i ∉ completed)
       (Problem.id <$> filter (λ p, is_visible (Profile.user profile) p = true)
                              (problems w))).

(** [cf_model.problem_neighbors(problem, problemset, metric, limit)]: the
    model iterates over the lazy queryset, which sends its query. *)
Definition cf_problem_neighbors (problem : Problem.t) (problemset : World → list Z)
    (metric : string) (limit : Z) : M (list (Qc * Z)) :=
  let* candidates := db_select "problem" problemset in
  λ w, (Ok (problem_neighbors problem candidates metric limit),
        push_query (ModelQuery metric) w).

Definition get_related_problems (profile : option Profile.t) (problem : Problem.t)
    (limit : Z) : M (option value) :=
  match profile with
  | None => ret None
  | Some profile =>
      let* path := read_ML_OUTPUT_PATH in
      if negb (path_set path) then ret None
      else
        let cache_key := related_problems_key profile problem in
        let* qs := cache_get cache_key in
        match qs with
        | Some qs => ret (Some qs)
        | None =>
            let* completed := user_completed_ids profile in
            let* completed := lift_outcome (id__in completed) in
            let problemset := related_problemset profile problem completed in
            let* dot := cf_problem_neighbors problem problemset DOT limit in
            let* cosine := cf_problem_neighbors problem problemset COSINE limit in
            let results := dot ++ cosine in
            let results := elements (list_to_set (snd <$> results) : gset Z) in
            let* now := read_clock in
            let seed := strftime_dmY now in
            let results := shuffle seed results in
            let results := list_slice_to limit results in
            let* results := mapM Problem_get results in
            let* _ := cache_set cache_key (VProblems results) 21600 in
            ret (Some (VProblems results))
        end
  end.

(** *** The cache as a set of snapshots

    An entry of the cache and the call that stored it: the call missed
    the cache in the world [w0], returned the value of the entry, and set
    the expiry to its time-to-live after the clock of [w0]. *)
Inductive stored_by (key : string) (e : cache_entry) (w0 : World) : Prop :=
  | stored_completed profile w0' :
      key = user_complete_key profile →
      cache_lookup key w0 = None →
      user_completed_ids profile w0 = (Ok (entry_value e), w0') →
      entry_expires e = clock w0 + 86400 →
      stored_by key e w0
  | stored_attempted profile w0' :
      key = user_attempted_key profile →
      cache_lookup key w0 = None →
      user_attempted_ids profile w0 = (Ok (entry_value e), w0') →
      entry_expires e = clock w0 + 86400 →
      stored_by key e w0
  | stored_hot duration limit w0' :
      key = hot_problems_key duration limit →
      cache_lookup key w0 = None →
      hot_problems duration limit w0 = (Ok (entry_value e), w0') →
      entry_expires e = clock w0 + 900 →
      stored_by key e w0
  | stored_related profile problem limit w0' :
      key = related_problems_key profile problem →
      cache_lookup key w0 = None →
      get_related_problems (Some profile) problem limit w0
        = (Ok (Some (entry_value e)), w0') →
      entry_expires e = clock w0 + 21600 →
      stored_by key e w0.

(** Every entry of the cache of [w] was stored by a helper that was
    called in one of the worlds of [history], no later than now. *)
Definition cache_sound (history : list World) (w : World) : Prop :=
  ∀ key e, cache w !! key = Some e →
           ∃ w0, w0 ∈ history ∧ clock w0 ≤ clock w ∧ stored_by key e w0.

(** The runs of the site, as the list of the worlds it went through,
    newest first: it starts with an empty cache; time passes, the tables
    change, and the helpers are called. *)
Inductive run : list World → Prop :=
  | run_start ps ss now path :
      run [mk_world ps ss ∅ now path []]
  | run_tick dt w past :
      0 ≤ dt → run (w :: past) → run (tick dt w :: w :: past)
  | run_tables ps ss w past :
      run (w :: past) → run (set_tables ps ss w :: w :: past)
  | run_completed profile w past :
      run (w :: past) → run (snd (user_completed_ids profile w) :: w :: past)
  | run_attempted profile w past :
      run (w :: past) → run (snd (user_attempted_ids profile w) :: w :: past)
  | run_hot duration limit w past :
      run (w :: past) → run (snd (hot_problems duration limit w) :: w :: past)
  | run_result_data args kwargs w past :
      run (w :: past) → run (snd (get_result_data args kwargs w) :: w :: past)
  | run_related profile problem limit w past :
      run (w :: past) →
      run (snd (get_related_problems profile problem limit w) :: w :: past).
End Recommender.

(** ** The helpers on authors and curators *)

(** Modelled from the spec: a problem has a set of author and of curator
    identities; the two many-to-many tables are declared in
    [judge.models], which is not among the sources.  A row links a problem
    id to a profile id. *)
Record Staff := mk_staff {
  problem_authors : list (Z * Z);
  problem_curators : list (Z * Z)
}.

(** The rows an INNER JOIN with a many-to-many table gives a problem: the
    profile ids linked to it. *)
Definition inner_join (links : list (Z * Z)) (p : Problem.t) : list Z :=
  snd <$> filter (λ link, link.1 = Problem.id p) links.

(** The rows of a LEFT OUTER JOIN: a problem without link keeps one row,
    with NULL for the profile id. *)
Definition left_join (links : list (Z * Z)) (p : Problem.t) : list (option Z) :=
  match inner_join links p with
  | [] => [None]
  | ids => Some <$> ids
  end.



(** [(Problem.objects.filter(authors=profile)
      | Problem.objects.filter(curators=profile)).values_list("id", flat=True)]:
    the union of two querysets is one query, in which the joins that only
    one side uses become LEFT OUTER JOINs and the conditions are joined by
    OR. *)
Definition editable_query (staff : Staff) (profile : Profile.t) (w : World) : list Z :=
  p ← problems w;
  a ← left_join (problem_authors staff) p;
  c ← left_join (problem_curators staff) p;
  if decide (a = Some (Profile.id profile) ∨ c = Some (Profile.id profile))
  then [Problem.id p] else [].

Definition user_editable_ids (staff : Staff) (profile : Profile.t) : M (gset Z) :=
  let* ids := db_select "problem" (editable_query staff profile) in
  let result := list_to_set ids in
  ret result.

(** Modelled from the spec: an account, with its profile and the
    permission check of the framework. *)
Module User.
Record t := mk {
  profile : Profile.t;
  has_perm : string → bool
}.
End User.

(** The rows of the queryset that [editable_problems] returns.  Without the
    permission to edit all problems the filter
    [Q(authors__id=profile.id) | Q(curators__id=profile.id)], extended by
    [| Q(is_public=True)] for who may edit public problems, joins both
    tables with LEFT OUTER JOINs; no [distinct()] follows. *)
Definition editable_problems (staff : Staff) (user : User.t)
    (profile : option Profile.t) (w : World) : list Problem.t :=
  let subquery := problems w in
  let profile := match profile with None => User.profile user | Some profile => profile end in
  if negb (User.has_perm user "judge.edit_all_problem") then
    let edit_public := User.has_perm user "judge.edit_public_problem" in
    p ← subquery;
    a ← left_join (problem_authors staff) p;
    c ← left_join (problem_curators staff) p;
    if decide (a = Some (Profile.id profile) ∨ c = Some (Profile.id profile)
               ∨ (edit_public = true ∧ Problem.is_public p = true))
    then [p] else []
  else subquery.

(** ** The helpers on contest participations *)

(** Modelled from the spec: a participation owns per-problem submission
    records, each with the points achieved and a reference to the problem;
    the tables are declared in [judge.models], which is not among the
    sources.  The lookups of the helpers show the links: a record refers to
    its submission ([submission__result]) and to a contest problem
    ([problem__points]), which refers to the underlying problem
    ([problem__problem__id]). *)
Module ContestProblem.
Record t := mk {
  id : Z;
  problem : Z;        (* foreign key: Problem.id *)
  points : Qc
}.
End ContestProblem.

Module ContestSubmission.
Record t := mk {
  submission : Z;     (* foreign key: Submission.id *)
  problem : Z;        (* foreign key: ContestProblem.id *)
  participation : Z;  (* foreign key: Participation.id *)
  points : Qc
}.
End ContestSubmission.

Module Participation.
Record t := mk {
  id : Z
}.
End Participation.

(** One entry of the mapping built by [contest_attempted_ids]. *)
Record contest_attempt := mk_contest_attempt {
  contest_achieved_points : Qc;
  contest_max_points : Qc
}.

(** The contest helpers in their own world: the tables they read and the
    cache, which here also holds the mappings of [contest_attempted_ids]. *)
Module Contest.
Inductive cached :=
  | Base (v : value)
  | Attempted (m : gmap Z contest_attempt).

Record entry := mk_entry { entry_value : cached; entry_expires : Z }.

Record World := mk_world {
  submissions : list Submission.t;
  contest_problems : list ContestProblem.t;
  contest_submissions : list ContestSubmission.t;
  cache : gmap string entry;
  clock : Z;
  queries : list query
}.

Definition M (A : Type) : Type := World → outcome A * World.

Definition ret {A} (a : A) : M A := λ w, (Ok a, w).
Definition bind {A B} (c : M A) (k : A → M B) : M B :=
  λ w, match c w with
       | (Ok a, w') => k a w'
       | (Raise e, w') => (Raise e, w')
       end.

Definition cache_lookup (key : string) (w : World) : option cached :=
  match cache w !! key with
  | Some e => if bool_decide (clock w < entry_expires e) then Some (entry_value e) else None
  | None => None
  end.

Definition cache_get (key : string) : M (option cached) :=
  λ w, (Ok (cache_lookup key w), w).

Definition cache_set (key : string) (v : cached) (ttl : Z) : M unit :=
  λ w, (Ok tt,
        mk_world (submissions w) (contest_problems w) (contest_submissions w)
                 (<[key := mk_entry v (clock w + ttl)]> (cache w))
                 (clock w) (queries w)).

Definition db_select {A} (table : string) (rows : World → A) : M A :=
  λ w, (Ok (rows w),
        mk_world (submissions w) (contest_problems w) (contest_submissions w)
                 (cache w) (clock w) (DbQuery table :: queries w)).

(** Time passes; the tables change. *)
Definition tick (dt : Z) (w : World) : World :=
  mk_world (submissions w) (contest_problems w) (contest_submissions w)
           (cache w) (clock w + dt) (queries w).

Definition set_tables (ss : list Submission.t) (cps : list ContestProblem.t)
    (css : list ContestSubmission.t) (w : World) : World :=
  mk_world ss cps css (cache w) (clock w) (queries w).
End Contest.

Notation "'let+' x ':=' c 'in' k" := (Contest.bind c (λ x, k))
  (at level 10, x pattern, c at level 100, k at level 200).

(** Following the foreign keys of a record (inner joins). *)
Definition submission_of (w : Contest.World) (cs : ContestSubmission.t)
  : option Submission.t :=
  List.find (λ s, bool_decide (Submission.id s = ContestSubmission.submission cs))
            (Contest.submissions w).

Definition contest_problem_of (w : Contest.World) (cs : ContestSubmission.t)
  : option ContestProblem.t :=
  List.find (λ cp, bool_decide (ContestProblem.id cp = ContestSubmission.problem cs))
            (Contest.contest_problems w).

(** [participation.submissions] *)
Definition participation_submissions (w : Contest.World) (participation : Participation.t)
  : list ContestSubmission.t :=
  filter (λ cs, ContestSubmission.participation cs = Participation.id participation)
         (Contest.contest_submissions w).

Definition contest_complete_key (participation : Participation.t) : string :=
  "contest_complete:" +:+ pretty (Participation.id participation).

(** [.filter(submission__result="AC", points=F("problem__points"))
    .values_list("problem__problem__id", flat=True).distinct()] *)
Definition contest_completed_query (participation : Participation.t)
    (w : Contest.World) : list Z :=
  remove_dups
    (omap (λ cs, ContestProblem.problem <$> contest_problem_of w cs)
       (filter (λ cs, Submission.result <$> submission_of w cs = Some AC
                      ∧ ContestProblem.points <$> contest_problem_of w cs
                        = Some (ContestSubmission.points cs))
               (participation_submissions w participation))).

Definition contest_completed_ids (participation : Participation.t)
  : Contest.M Contest.cached :=
  let key := contest_complete_key participation in
  let+ result := Contest.cache_get key in
  match result with
  | None =>
      let+ ids := Contest.db_select "contestsubmission"
                    (contest_completed_query participation) in
      let result := Contest.Base (VIdSet (list_to_set ids)) in
      let+ _ := Contest.cache_set key result 86400 in
      Contest.ret result
  | Some result => Contest.ret result
  end.

Definition contest_attempted_key (participation : Participation.t) : string :=
  "contest_attempted:" +:+ pretty (Participation.id participation).

(** The records of a participation joined with their contest problem. *)
Definition contest_joined (w : Contest.World) (participation : Participation.t)
  : list (ContestSubmission.t * ContestProblem.t) :=
  omap (λ cs, pair cs <$> contest_problem_of w cs)
       (participation_submissions w participation).

(** One row per group of [.values_list("problem__problem__id",
    "problem__points").annotate(points=Max("points"))
    .filter(points__lt=F("problem__points"))]: the group of a problem id
    and a maximum. *)
Definition contest_attempted_row (joined : list (ContestSubmission.t * ContestProblem.t))
    (group : Z * Qc) : option (Z * contest_attempt) :=
  let members :=
    filter (λ row, (ContestProblem.problem row.2, ContestProblem.points row.2) = group)
           joined in
  match Max_points ((λ row, ContestSubmission.points row.1) <$> members) with
  | Some points =>
      if bool_decide (points < group.2)%Qc
      then Some (group.1, mk_contest_attempt points group.2)
      else None
  | None => None
  end.

Definition contest_attempted_query (participation : Participation.t)
    (w : Contest.World) : list (Z * contest_attempt) :=
  let joined := contest_joined w participation in
  omap (contest_attempted_row joined)
       (remove_dups ((λ row, (ContestProblem.problem row.2, ContestProblem.points row.2))
                       <$> joined)).

Definition contest_attempted_ids (participation : Participation.t)
  : Contest.M Contest.cached :=
  let key := contest_attempted_key participation in
  let+ result := Contest.cache_get key in
  match result with
  | None =>
      let+ rows := Contest.db_select "contestsubmission"
                     (contest_attempted_query participation) in
      let result := Contest.Attempted (dict_of rows) in
      let+ _ := Contest.cache_set key result 86400 in
      Contest.ret result
  | Some result => Contest.ret result
  end.

(** ** Properties in the words of the specification *)

(** Some submission by the profile reached the problem's maximum points. *)
Definition full_points_by (w : World) (profile : Profile.t) (pid : Z) : Prop :=
  ∃ s p, s ∈ submissions w
         ∧ Submission.user s = Profile.id profile
         ∧ Submission.problem s = pid
         ∧ problem_of w s = Some p
         ∧ Submission.points s = Problem.points p.

(** The same, for a submission whose verdict is AC. *)
Definition accepted_full_points_by (w : World) (profile : Profile.t) (pid : Z) : Prop :=
  ∃ s p, s ∈ submissions w
         ∧ Submission.user s = Profile.id profile
         ∧ Submission.result s = AC
         ∧ Submission.problem s = pid
         ∧ problem_of w s = Some p
         ∧ Submission.points s = Problem.points p.

(** The number of submissions of a collection with a given verdict. *)
Definition count_result (c : result_code) (subs : list Submission.t) : Z :=
  Z.of_nat (length (filter (λ s, Submission.result s = c) subs)).

(** The count reported for a category of the histogram. *)
Definition category_count (code : string) (r : result_data) : option Z :=
  cat_count <$> List.find (λ c, bool_decide (cat_code c = code)) (categories r).

Definition sum_counts (r : result_data) : Z :=
  foldr Z.add 0 (cat_count <$> categories r).

(** Reading a [defaultdict] changes neither any count nor the sum. *)
Definition same_counts (m m' : gmap string Z) : Prop :=
  sum_values m' = sum_values m ∧ ∀ k, default 0 (m' !! k) = default 0 (m !! k).

(** [r] is the histogram of the collection [subs]. *)
Definition histogram_of (subs : list Submission.t) (r : result_data) : Prop :=
  cat_code <$> categories r = ["AC"; "WA"; "CE"; "TLE"; "ERR"]
  ∧ category_count "AC" r = Some (count_result AC subs)
  ∧ category_count "WA" r = Some (count_result WA subs)
  ∧ category_count "CE" r = Some (count_result CE subs)
  ∧ category_count "TLE" r = Some (count_result TLE subs)
  ∧ category_count "ERR" r =
      Some (count_result MLE subs + count_result OLE subs + count_result IR subs
            + count_result RTE subs + count_result AB subs + count_result IE subs)
  ∧ total r = Z.of_nat (length subs).

(** [mx] is the largest number of the list. *)
Definition is_max (mx : Z) (l : list Z) : Prop :=
  mx ∈ l ∧ ∀ x, x ∈ l → x ≤ mx.


(** The users with a submission to a problem inside the trailing window. *)
Definition window_users (w : World) (duration : Z) (p : Problem.t) : gset Z :=
  list_to_set (Submission.user
                 <$> filter (λ s, Submission.problem s = Problem.id p
                                  ∧ clock w - duration < Submission.date s)
                            (submissions w)).


(** Strictly descending scores. *)
Definition row_gt (r1 r2 : hot_row) : Prop :=
  match ordering r1, ordering r2 with
  | Some x, Some y => (y < x)%R
  | _, _ => False
  end.

(** ** Properties of the remaining code paths *)

(** The keys that [_get_result_data] reads. *)
Definition category_keys : list string :=
  ["AC"; "WA"; "CE"; "TLE"; "MLE"; "OLE"; "IR"; "RTE"; "AB"; "IE"].


(** ** Example databases *)

Definition five : Qc := Qc_of_Z 5.
Definition half : Qc := Q2Qc (1 # 2).

Definition alice : Profile.t := Profile.mk 7 70.

Definition aplusb : Problem.t := Problem.mk 1 "aplusb" "A Plus B" five true half.
Definition hello : Problem.t := Problem.mk 2 "hello" "Hello, World!" five true half.

Definition empty_world (ps : list Problem.t) (ss : list Submission.t) (now : Z) : World :=
  mk_world ps ss ∅ now (Some "/ml") [].

(** A wrong answer on a problem worth nothing has the problem's points. *)
Definition freebie : Problem.t := Problem.mk 3 "freebie" "Freebie" (Qc_of_Z 0) true half.
Definition world_wrong_full : World :=
  empty_world [freebie] [Submission.mk 10 7 3 WA (Qc_of_Z 0) 900] 1000.

(** Alice first scores three of five points on a problem and later gets
    it accepted with full points. *)
Definition partial_try : Submission.t := Submission.mk 20 7 1 WA (Qc_of_Z 3) 900.
Definition full_solve : Submission.t := Submission.mk 21 7 1 AC five 1100.
Definition world_partial : World := empty_world [aplusb] [partial_try] 1000.
Definition world_solved_later : World :=
  store_submission full_solve (tick 200 (snd (user_attempted_ids alice world_partial))).


(** Two public problems with the same points and rate, each tried by the
    same two users with the same verdicts. *)
Definition world_tied : World :=
  empty_world [aplusb; hello]
    [ Submission.mk 40 7 1 AC five 900; Submission.mk 41 8 1 WA (Qc_of_Z 0) 910;
      Submission.mk 42 7 2 AC five 920; Submission.mk 43 8 2 WA (Qc_of_Z 0) 930 ]
    1000.


(** Stand-ins for what the recommender takes from outside: every problem
    is visible, the model ranks the candidates in the order given and
    returns the first [limit], the shuffle keeps the order. *)
Definition all_visible (user : Z) (p : Problem.t) : bool := true.
Definition first_candidates (problem : Problem.t) (candidates : list Z)
    (metric : string) (limit : Z) : list (Qc * Z) :=
  (λ i, (Qc_of_Z 0, i)) <$> take (Z.to_nat limit) candidates.
Definition keep_order (seed : string) (l : list Z) : list Z := l.
Definition some_day (now : Z) : string := "01012024".

Definition related := get_related_problems all_visible first_candidates keep_order some_day.

Definition sorting : Problem.t := Problem.mk 4 "sorting" "Sorting" five true half.

Definition world_fresh : World := empty_world [aplusb; hello; sorting] [] 0.

(** Alice's completed set is cached at time 0.  Shortly before it expires
    she asks for problems related to [aplusb]; afterwards she solves
    [hello], and the completed set expires. *)
Definition hello_solved : Submission.t := Submission.mk 60 7 2 AC five 85000.
Definition world_recommended : World :=
  snd (related (Some alice) aplusb 8
         (tick 80000 (snd (user_completed_ids alice world_fresh)))).
Definition world_recommended_stale : World :=
  store_submission hello_solved (tick 10000 world_recommended).

(** Runs in which an earlier call has filled the cache. *)
Definition world_partial_cached : World :=
  tick 100 (snd (user_completed_ids alice world_partial)).
Definition past_partial_cached : list World :=
  [snd (user_completed_ids alice world_partial); world_partial].

Definition world_tied_cached : World :=
  tick 100 (snd (hot_problems 3600 10 world_tied)).
Definition past_tied_cached : list World :=
  [snd (hot_problems 3600 10 world_tied); world_tied].

Definition world_fresh_cached : World :=
  tick 100 (snd (related (Some alice) aplusb 8 world_fresh)).
Definition past_fresh_cached : list World :=
  [snd (related (Some alice) aplusb 8 world_fresh); world_fresh].

(** Alice wrote [aplusb], which two others curate, and curates [hello];
    her account has no special permission. *)
Definition staff_example : Staff :=
  mk_staff [(1, 7)] [(1, 8); (1, 9); (2, 7)].
Definition alice_user : User.t := User.mk alice (λ _, false).

(** A participation with a full accepted solution of one problem and two
    of five points on another. *)
Definition entrant : Participation.t := Participation.mk 1.
Definition contest_world : Contest.World :=
  Contest.mk_world
    [Submission.mk 10 7 1 AC five 100; Submission.mk 11 7 2 WA (Qc_of_Z 2) 100]
    [ContestProblem.mk 100 1 five; ContestProblem.mk 101 2 five]
    [ContestSubmission.mk 10 100 1 five; ContestSubmission.mk 11 101 1 (Qc_of_Z 2)]
    ∅ 1000 [].

(** The counts of a collection with two accepted submissions. *)
Definition accepted_twice : gmap string Z := {["AC" := 2]}.


(** ** The cache and the monad *)

Lemma cache_lookup_set_eq key v ttl w :
  0 < ttl →
  cache_lookup key (snd (cache_set key v ttl w)) = Some v.
Proof.
  intros Httl. unfold cache_lookup, cache_set; simpl.
  rewrite lookup_insert_eq; simpl.
  rewrite bool_decide_eq_true_2; [done | lia].
Qed.

Lemma cache_lookup_set_ne key key' v ttl w :
  key ≠ key' →
  cache_lookup key' (snd (cache_set key v ttl w)) = cache_lookup key' w.
Proof.
  intros Hne. unfold cache_lookup, cache_set; simpl.
  by rewrite lookup_insert_ne.
Qed.

Lemma cache_lookup_push_query key q w :
  cache_lookup key (push_query q w) = cache_lookup key w.
Proof. reflexivity. Qed.

(** ** user_completed_ids *)

Lemma user_completed_ids_hit profile w v :
  cache_lookup (user_complete_key profile) w = Some v →
  user_completed_ids profile w = (Ok v, w).
Proof.
  intros Hhit. unfold user_completed_ids, bind, cache_get. by rewrite Hhit.
Qed.

Lemma user_completed_ids_miss_eq profile w :
  cache_lookup (user_complete_key profile) w = None →
  user_completed_ids profile w =
    (Ok (VIdSet (list_to_set (completed_query profile w))),
     snd (cache_set (user_complete_key profile)
            (VIdSet (list_to_set (completed_query profile w))) 86400
            (push_query (DbQuery "submission") w))).
Proof.
  intros Hmiss. unfold user_completed_ids, bind, cache_get. by rewrite Hmiss.
Qed.

Lemma completed_query_spec profile w pid :
  pid ∈ completed_query profile w ↔ accepted_full_points_by w profile pid.
Proof.
  unfold completed_query, accepted_full_points_by.
  rewrite elem_of_remove_dups, list_elem_of_fmap. split.
  - intros (s & -> & Hs). apply list_elem_of_filter in Hs as [(Hu & Hr & Hp) Hin].
    destruct (problem_of w s) as [p|] eqn:Hpo; [|done].
    exists s, p. simpl in Hp. by simplify_eq.
  - intros (s & p & Hin & Hu & Hr & <- & Hpo & Hpts).
    exists s. split; [done|]. apply list_elem_of_filter. split; [|done].
    repeat split; try done. rewrite Hpo; simpl. by rewrite Hpts.
Qed.

(** A miss returns exactly the ids of the problems for which some
    submission of the profile with verdict AC has points equal to the
    problem's points, and stores the set under the profile's key. *)
Lemma user_completed_ids_miss profile w :
  cache_lookup (user_complete_key profile) w = None →
  ∃ S w', user_completed_ids profile w = (Ok (VIdSet S), w')
          ∧ (∀ pid, pid ∈ S ↔ accepted_full_points_by w profile pid)
          ∧ cache_lookup (user_complete_key profile) w' = Some (VIdSet S).
Proof.
  intros Hmiss. eexists _, _. split; [by apply user_completed_ids_miss_eq|].
  split.
  - intros pid. rewrite elem_of_list_to_set. apply completed_query_spec.
  - by apply cache_lookup_set_eq.
Qed.

(** C1, as stated, fails: a submission with the problem's full points but
    another verdict than AC does not make the problem completed. *)
Lemma user_completed_ids_ignores_other_verdicts :
  ∃ S w', user_completed_ids alice world_wrong_full = (Ok (VIdSet S), w')
          ∧ ¬ (∀ pid, pid ∈ S ↔ full_points_by world_wrong_full alice pid).
Proof.
  eexists _, _. split; [by apply user_completed_ids_miss_eq|].
  intros Hall. specialize (Hall 3) as [_ Hall].
  assert (H3 : 3 ∈ (list_to_set (completed_query alice world_wrong_full) : gset Z)).
  { apply Hall. exists (Submission.mk 10 7 3 WA (Qc_of_Z 0) 900), freebie.
    repeat split; try done. apply list_elem_of_here. }
  apply elem_of_list_to_set in H3. vm_compute in H3.
  by apply elem_of_nil in H3.
Qed.

(** ** user_attempted_ids *)

Lemma user_keys_differ profile profile' :
  user_complete_key profile ≠ user_attempted_key profile'.
Proof. unfold user_complete_key, user_attempted_key. intros H. discriminate H. Qed.

Lemma user_attempted_ids_hit profile w v :
  cache_lookup (user_attempted_key profile) w = Some v →
  user_attempted_ids profile w = (Ok v, w).
Proof.
  intros Hhit. unfold user_attempted_ids, bind, cache_get. by rewrite Hhit.
Qed.

Lemma user_attempted_ids_miss_eq profile w :
  cache_lookup (user_attempted_key profile) w = None →
  user_attempted_ids profile w =
    (Ok (VAttempted (dict_of (attempted_query profile w))),
     snd (cache_set (user_attempted_key profile)
            (VAttempted (dict_of (attempted_query profile w))) 86400
            (push_query (DbQuery "submission") w))).
Proof.
  intros Hmiss. unfold user_attempted_ids, bind, cache_get. by rewrite Hmiss.
Qed.

Lemma Max_points_upper l m x :
  Max_points l = Some m → x ∈ l → (x ≤ m)%Qc.
Proof.
  revert m. induction l as [|y l IH]; intros m Hm Hx; [by apply elem_of_nil in Hx|].
  simpl in Hm. injection Hm as <-.
  apply elem_of_cons in Hx as [->|Hx].
  - destruct (Max_points l) as [m'|]; [|done].
    unfold Qc_max. case_decide; [done|reflexivity].
  - destruct (Max_points l) as [m'|] eqn:Hl; [|by destruct l; [apply elem_of_nil in Hx|]].
    specialize (IH m' eq_refl Hx). unfold Qc_max. case_decide; [done|].
    etrans; [exact IH|]. by apply Qclt_le_weak, Qclt_nge.
Qed.

Lemma dom_dict_of {V} (rows : list (Z * V)) i :
  i ∈ dom (dict_of rows) ↔ i ∈ rows.*1.
Proof.
  unfold dict_of.
  assert (Hgen : ∀ m : gmap Z V,
            i ∈ dom (foldl (λ m kv, <[kv.1 := kv.2]> m) m rows) ↔ i ∈ dom m ∨ i ∈ rows.*1).
  { induction rows as [|[k v] rows IH]; intros m; simpl.
    - rewrite elem_of_nil. tauto.
    - rewrite IH, dom_insert, elem_of_union, elem_of_singleton, elem_of_cons. tauto. }
  rewrite Hgen, dom_empty, elem_of_empty. tauto.
Qed.

(** A problem in the attempted rows has the profile's best points strictly
    below the problem's points. *)
Lemma attempted_query_best_below profile w pid :
  pid ∈ (attempted_query profile w).*1 →
  ∃ p best, Problem_by_id w pid = Some p
            ∧ (best < Problem.points p)%Qc
            ∧ ∀ s, s ∈ submissions w → Submission.user s = Profile.id profile →
                   Submission.problem s = pid → (Submission.points s ≤ best)%Qc.
Proof.
  unfold attempted_query. intros Hin.
  apply list_elem_of_fmap in Hin as ([pid' att] & -> & Hin).
  apply list_elem_of_omap in Hin as (pid0 & Hpid0 & Hrow).
  unfold attempted_row in Hrow.
  destruct (Problem_by_id w pid0) as [p|] eqn:Hp; [|done].
  destruct (Max_points _) as [best|] eqn:Hbest; [|done].
  destruct (Max_id _) as [last|]; [|done].
  case_bool_decide as Hlt; [|done]. injection Hrow as <- <-. simpl.
  exists p, best. repeat split; [done..|].
  intros s Hs Hu Hpid. eapply Max_points_upper; [exact Hbest|].
  apply list_elem_of_fmap. exists s. split; [done|].
  apply list_elem_of_filter. split; [done|].
  apply list_elem_of_filter. split; [|done]. split; [done|].
  unfold problem_of. rewrite Hpid, Hp. by eexists.
Qed.

Lemma completed_attempted_disjoint profile w pid :
  pid ∈ completed_query profile w → pid ∉ (attempted_query profile w).*1.
Proof.
  intros Hc Ha. apply completed_query_spec in Hc as (s & p & Hs & Hu & _ & Hpid & Hpo & Hpts).
  apply attempted_query_best_below in Ha as (p' & best & Hp' & Hlt & Hle).
  unfold problem_of in Hpo. rewrite Hpid, Hp' in Hpo. injection Hpo as ->.
  specialize (Hle s Hs Hu Hpid). rewrite Hpts in Hle.
  by apply Qclt_nge in Hlt.
Qed.

(** C9, as amended: when both results are computed from the same tables
    (neither is in the cache), the completed set and the keys of the
    attempted mapping are disjoint. *)
Theorem completed_attempted_disjoint_on_miss profile w :
  cache_lookup (user_complete_key profile) w = None →
  cache_lookup (user_attempted_key profile) w = None →
  ∃ S A w1 w2,
    user_completed_ids profile w = (Ok (VIdSet S), w1)
    ∧ user_attempted_ids profile w1 = (Ok (VAttempted A), w2)
    ∧ S ## dom A.
Proof.
  intros Hc Ha. eexists _, _, _, _.
  split; [by apply user_completed_ids_miss_eq|].
  split.
  - apply user_attempted_ids_miss_eq.
    rewrite cache_lookup_set_ne; [done|]. apply user_keys_differ.
  - intros pid HS HA. apply elem_of_list_to_set in HS. apply dom_dict_of in HA.
    by apply (completed_attempted_disjoint profile w pid).
Qed.

Lemma completed_attempted_disjoint_on_miss_witness :
  ∃ S A w1 w2,
    user_completed_ids alice world_partial = (Ok (VIdSet S), w1)
    ∧ user_attempted_ids alice w1 = (Ok (VAttempted A), w2)
    ∧ S ## dom A.
Proof.
  apply (completed_attempted_disjoint_on_miss alice world_partial); reflexivity.
Defined.

(** C9, as stated, fails: the attempted mapping is served from the cache
    for a day, so it can still list a problem that the profile has solved
    in the meantime and that a fresh completed set contains. *)
Lemma completed_attempted_overlap_when_stale :
  ∃ S A w1 w2,
    user_completed_ids alice world_solved_later = (Ok (VIdSet S), w1)
    ∧ user_attempted_ids alice w1 = (Ok (VAttempted A), w2)
    ∧ ¬ S ## dom A.
Proof.
  eexists _, _, _, _.
  split; [by apply user_completed_ids_miss_eq|].
  split; [by apply user_attempted_ids_hit|].
  intros Hdisj. apply (Hdisj 1).
  - apply elem_of_list_to_set. vm_compute. apply list_elem_of_here.
  - apply dom_dict_of. vm_compute. apply list_elem_of_here.
Qed.

(** ** get_result_data *)

Lemma result_str_inj c1 c2 : result_str c1 = result_str c2 → c1 = c2.
Proof. by destruct c1, c2. Qed.

Lemma sum_values_insert_fresh k v (m : gmap string Z) :
  m !! k = None → sum_values (<[k := v]> m) = sum_values m + v.
Proof.
  intros Hk. unfold sum_values.
  rewrite map_fold_insert_L; [done| |done]. intros; lia.
Qed.

Lemma sum_values_insert k v (m : gmap string Z) :
  sum_values (<[k := v]> m) = sum_values m - default 0 (m !! k) + v.
Proof.
  destruct (m !! k) as [old|] eqn:Hk; simpl.
  - rewrite <- (insert_delete_id m k old) at 2 by done.
    rewrite <- (insert_delete_eq m k v).
    rewrite !sum_values_insert_fresh by apply lookup_delete_eq. lia.
  - rewrite sum_values_insert_fresh by done. lia.
Qed.

Lemma defaultdict_get_spec k m :
  ∃ m', defaultdict_get k m = (default 0 (m !! k), m') ∧ same_counts m m'.
Proof.
  unfold defaultdict_get. destruct (m !! k) as [v|] eqn:Hk; simpl.
  - exists m. by split.
  - exists (<[k := 0]> m). split; [done|]. split.
    + rewrite sum_values_insert, Hk; simpl. lia.
    + intros k'. destruct (decide (k = k')) as [<-|Hne].
      * by rewrite lookup_insert_eq, Hk.
      * by rewrite lookup_insert_ne.
Qed.

Lemma same_counts_trans m1 m2 m3 :
  same_counts m1 m2 → same_counts m2 m3 → same_counts m1 m3.
Proof.
  intros [Hs1 Hk1] [Hs2 Hk2]. split; [congruence|]. intros k. by rewrite Hk2, Hk1.
Qed.

Lemma _get_result_data_eq m :
  _get_result_data m =
    {| categories :=
         [ mk_category "AC" "Accepted" (default 0 (m !! "AC"));
           mk_category "WA" "Wrong" (default 0 (m !! "WA"));
           mk_category "CE" "Compile Error" (default 0 (m !! "CE"));
           mk_category "TLE" "Timeout" (default 0 (m !! "TLE"));
           mk_category "ERR" "Error"
             (default 0 (m !! "MLE") + default 0 (m !! "OLE") + default 0 (m !! "IR")
              + default 0 (m !! "RTE") + default 0 (m !! "AB") + default 0 (m !! "IE")) ];
       total := sum_values m |}.
Proof.
  unfold _get_result_data.
  assert (H0 : same_counts m m) by done. revert H0. generalize m at 2 3 as m0.
  intros m0 H0.
  repeat match goal with
  | H : same_counts m ?mi |- context [defaultdict_get ?k ?mi] =>
      let m' := fresh "m" in let Heq := fresh "Heq" in let Hs := fresh "Hs" in
      destruct (defaultdict_get_spec k mi) as (m' & Heq & Hs);
      rewrite Heq; rewrite (proj2 H k);
      pose proof (same_counts_trans _ _ _ H Hs); clear H Heq Hs
  end.
  match goal with H : same_counts m ?mi |- _ => by rewrite (proj1 H) end.
Qed.

Lemma result_counts_lookup c subs :
  default 0 (result_counts subs !! result_str c) = count_result c subs.
Proof.
  unfold count_result. induction subs as [|s subs IH]; simpl; [done|].
  rewrite filter_cons. destruct (decide (Submission.result s = c)) as [->|Hne].
  - rewrite lookup_insert_eq; simpl. rewrite IH. lia.
  - rewrite lookup_insert_ne; [done|]. intros Heq. by apply result_str_inj in Heq.
Qed.

Lemma result_counts_sum subs :
  sum_values (result_counts subs) = Z.of_nat (length subs).
Proof.
  induction subs as [|s subs IH]; simpl; [done|].
  rewrite sum_values_insert, IH. lia.
Qed.

Lemma result_counts_nonneg k subs : 0 ≤ default 0 (result_counts subs !! k).
Proof.
  induction subs as [|s subs IH]; simpl; [done|].
  destruct (decide (result_str (Submission.result s) = k)) as [<-|Hne].
  - rewrite lookup_insert_eq; simpl. lia.
  - by rewrite lookup_insert_ne.
Qed.

Lemma count_result_total subs :
  Z.of_nat (length subs) =
    count_result AC subs + count_result WA subs + count_result CE subs
    + count_result TLE subs + count_result MLE subs + count_result OLE subs
    + count_result IR subs + count_result RTE subs + count_result AB subs
    + count_result IE subs.
Proof.
  unfold count_result. induction subs as [|s subs IH]; [done|].
  rewrite !filter_cons. destruct (Submission.result s); simpl;
    repeat case_decide; try done; simpl length; lia.
Qed.

Lemma _get_result_data_histogram subs :
  histogram_of subs (_get_result_data (result_counts subs)).
Proof.
  rewrite _get_result_data_eq. unfold histogram_of, category_count; simpl.
  rewrite <- !result_counts_lookup, result_counts_sum. by repeat split.
Qed.

Lemma get_result_data_positional subs rest w :
  get_result_data (subs :: rest) [] w =
    (Ok (_get_result_data (result_counts subs)), push_query (DbQuery "submission") w).
Proof. reflexivity. Qed.

(** C3: for every submission collection, the total of the histogram is the
    sum of its five category counts, the count of ERR is the number of
    submissions with one of the six verdicts MLE, OLE, IR, RTE, AB, IE, and
    no count is negative. *)
Theorem get_result_data_totals (subs : list Submission.t) rest w :
  ∃ r w', get_result_data (subs :: rest) [] w = (Ok r, w')
          ∧ total r = sum_counts r
          ∧ category_count "ERR" r =
              Some (count_result MLE subs + count_result OLE subs + count_result IR subs
                    + count_result RTE subs + count_result AB subs + count_result IE subs)
          ∧ Forall (λ c, 0 ≤ cat_count c) (categories r).
Proof.
  eexists _, _. split; [apply get_result_data_positional|].
  destruct (_get_result_data_histogram subs) as (_ & _ & _ & _ & _ & Herr & Htot).
  split; [|split; [exact Herr|]].
  - rewrite Htot, (count_result_total subs), <- !result_counts_lookup.
    rewrite _get_result_data_eq. unfold sum_counts; simpl. lia.
  - rewrite _get_result_data_eq; simpl.
    repeat constructor; simpl;
      repeat apply Z.add_nonneg_nonneg; apply result_counts_nonneg.
Qed.

(** C7: with a positional collection and at least one keyword filter the
    call raises the argument error; nothing has been queried by then. *)
Theorem get_result_data_both_rejected (args : list (list Submission.t)) kwargs w :
  args ≠ [] → kwargs ≠ [] →
  ∃ msg, get_result_data args kwargs w = (Raise (ValueError msg), w).
Proof.
  intros Hargs Hkwargs. destruct args as [|qs rest]; [done|].
  unfold get_result_data, bind. rewrite decide_True by done.
  by eexists.
Qed.

Lemma get_result_data_both_rejected_witness :
  ∃ msg, get_result_data [[partial_try]] [("result", LStr "AC")] world_partial
         = (Raise (ValueError msg), world_partial).
Proof.
  apply (get_result_data_both_rejected [[partial_try]] [("result", LStr "AC")]
           world_partial); discriminate.
Defined.

(** C10: without a positional argument and without keyword filters the
    call does not fail; the (empty) filter branch is taken and the result
    is the histogram over every submission in the database. *)
Theorem get_result_data_no_arguments w :
  ∃ r, get_result_data [] [] w = (Ok r, push_query (DbQuery "submission") w)
       ∧ histogram_of (submissions w) r.
Proof.
  exists (_get_result_data (result_counts (submissions w))).
  split; [reflexivity|]. apply _get_result_data_histogram.
Qed.

(** ** hot_problems *)

Lemma hot_problems_hit duration limit w v :
  cache_lookup (hot_problems_key duration limit) w = Some v →
  hot_problems duration limit w = (Ok v, w).
Proof.
  intros Hhit. unfold hot_problems, bind, cache_get. by rewrite Hhit.
Qed.

Lemma hot_problems_miss_eq duration limit w :
  cache_lookup (hot_problems_key duration limit) w = None →
  hot_problems duration limit w =
    match hot_qs0 duration w with
    | [] => (Ok (VHot []), push_query (DbQuery "problem") w)
    | mx :: _ =>
        if decide (limit < 0)
        then (Raise (AssertionError "Negative indexing is not supported."),
              push_query (DbQuery "problem") w)
        else (Ok (VHot (hot_query duration limit mx w)),
              snd (cache_set (hot_problems_key duration limit)
                     (VHot (hot_query duration limit mx w)) 900
                     (push_query (DbQuery "problem")
                        (push_query (DbQuery "problem") w))))
    end.
Proof.
  intros Hmiss. unfold hot_problems, bind, cache_get, db_select. rewrite Hmiss.
  destruct (hot_qs0 duration w) as [|mx qs0]; [done|].
  by case_decide.
Qed.

#[local] Instance flip_le_total : Total (flip Z.le).
Proof. intros x y. unfold flip. lia. Qed.

#[local] Instance flip_le_trans : Transitive (flip Z.le).
Proof. intros x y z. unfold flip. lia. Qed.

(** The first element of [qs0] is the largest count. *)
Lemma hot_qs0_head duration w mx qs0 :
  hot_qs0 duration w = mx :: qs0 →
  is_max mx (ann_unique_user_count <$> hot_candidates w duration).
Proof.
  unfold hot_qs0. intros Heq.
  pose proof (merge_sort_Permutation (flip Z.le)
                (ann_unique_user_count <$> hot_candidates w duration)) as Hperm.
  pose proof (StronglySorted_merge_sort (flip Z.le)
                (ann_unique_user_count <$> hot_candidates w duration)) as Hsorted.
  rewrite Heq in Hperm, Hsorted. apply StronglySorted_inv in Hsorted as [_ Hall].
  split.
  - rewrite <- Hperm. apply list_elem_of_here.
  - intros x Hx. rewrite <- Hperm in Hx. apply elem_of_cons in Hx as [->|Hx]; [done|].
    rewrite Forall_forall in Hall. by apply Hall.
Qed.

Lemma is_max_unique l mx mx' : is_max mx l → is_max mx' l → mx = mx'.
Proof. intros [Hin Hle] [Hin' Hle']. apply Hle in Hin'. apply Hle' in Hin. lia. Qed.

Lemma hot_qs0_nil duration w :
  hot_qs0 duration w = [] → hot_candidates w duration = [].
Proof.
  unfold hot_qs0. intros Heq.
  pose proof (merge_sort_Permutation (flip Z.le)
                (ann_unique_user_count <$> hot_candidates w duration)) as Hperm.
  rewrite Heq in Hperm. apply Permutation_nil in Hperm.
  by apply fmap_nil_inv in Hperm.
Qed.

Lemma Qc_max_lt a b c : (Qc_max a b < c)%Qc ↔ (a < c)%Qc ∧ (b < c)%Qc.
Proof.
  unfold Qc_max. case_decide as Hab; split.
  - intros Hb. split; [|done]. by eapply Qcle_lt_trans.
  - by intros [_ ?].
  - intros Ha. split; [done|]. apply Qclt_nge in Hab.
    by etrans.
  - by intros [? _].
Qed.

(** [unique_user_count > max(mx / 3.0, 1)] in integers. *)
Lemma popularity_floor_lt mx u :
  (popularity_floor mx < Qc_of_Z u)%Qc ↔ mx < 3 * u ∧ 1 < u.
Proof.
  unfold popularity_floor. rewrite Qc_max_lt, <- Z2Qc_inj_lt.
  assert (H3 : (0 < Qc_of_Z 3)%Qc) by (rewrite <- Z2Qc_inj_0; by apply Z2Qc_inj_lt).
  rewrite (Qcmult_lt_mono_pos_r _ _ _ H3).
  replace (Qc_of_Z mx / Qc_of_Z 3 * Qc_of_Z 3)%Qc with (Qc_of_Z mx).
  - rewrite <- Z2Qc_inj_mul, <- Z2Qc_inj_lt. lia.
  - unfold Qcdiv. rewrite <- Qcmult_assoc, Qcmult_inv_l, Qcmult_1_r; [done|].
    intros H0. rewrite H0 in H3. by apply Qclt_not_eq in H3.
Qed.

#[local] Instance row_ge_total : Total row_ge.
Proof.
  intros r1 r2. unfold row_ge, ordering_ge.
  destruct (ordering r1) as [x|], (ordering r2) as [y|]; auto.
  destruct (Rle_or_lt x y); [by right|left]. by apply Rlt_le.
Qed.

#[local] Instance row_ge_trans : Transitive row_ge.
Proof.
  intros r1 r2 r3. unfold row_ge, ordering_ge.
  destruct (ordering r1) as [x|], (ordering r2) as [y|], (ordering r3) as [z|];
    try done.
  intros Hyx Hzy. by eapply Rle_trans.
Qed.

Lemma StronglySorted_take {A} (R : relation A) n l :
  StronglySorted R l → StronglySorted R (take n l).
Proof.
  intros Hs. rewrite <- (take_drop n l) in Hs. by apply StronglySorted_app_1_l in Hs.
Qed.

Lemma hot_candidates_elem w duration c :
  c ∈ hot_candidates w duration ↔
  ∃ p, p ∈ problems w ∧ Problem.is_public p = true
       ∧ window_submissions w duration p ≠ [] ∧ c = annotate w duration p.
Proof.
  unfold hot_candidates, get_public_problems.
  rewrite list_elem_of_fmap. split.
  - intros (p & -> & Hp). apply list_elem_of_filter in Hp as [Hne Hp].
    apply list_elem_of_filter in Hp as [Hpub Hp]. by exists p.
  - intros (p & Hp & Hpub & Hne & ->). exists p. split; [done|].
    apply list_elem_of_filter. split; [done|]. by apply list_elem_of_filter.
Qed.

Lemma hot_query_elem duration limit mx w r :
  r ∈ hot_query duration limit mx w →
  ∃ c, c ∈ hot_candidates w duration
       ∧ (popularity_floor mx < Qc_of_Z (ann_unique_user_count c))%Qc
       ∧ r = with_ordering mx c.
Proof.
  unfold hot_query, slice_to. intros Hr.
  apply subseteq_take in Hr. rewrite merge_sort_Permutation in Hr.
  apply list_elem_of_fmap in Hr as (c & -> & Hc).
  apply list_elem_of_filter in Hc as [Hfloor Hc]. by exists c.
Qed.

Lemma hot_query_sorted duration limit mx w :
  StronglySorted row_ge (hot_query duration limit mx w).
Proof.
  unfold hot_query, slice_to. apply StronglySorted_take.
  apply (StronglySorted_merge_sort row_ge).
Qed.

Lemma hot_query_length duration limit mx w :
  0 ≤ limit → Z.of_nat (length (hot_query duration limit mx w)) ≤ limit.
Proof.
  intros Hl. unfold hot_query, slice_to. rewrite length_take. lia.
Qed.

(** The distinct-submitter count is the number of users in the window. *)
Lemma Count_distinct_user_size w duration p :
  Count_distinct_user (window_submissions w duration p)
  = Z.of_nat (size (window_users w duration p)).
Proof.
  unfold Count_distinct_user, window_users, window_submissions. f_equal.
  rewrite <- (size_list_to_set (C := gset Z) (remove_dups _))
    by apply NoDup_remove_dups.
  f_equal. apply set_eq. intros u.
  by rewrite !elem_of_list_to_set, elem_of_remove_dups.
Qed.

Lemma Case_is_Some whens s :
  is_Some (Case whens s) ↔ Submission.result s ∈ whens.*1.
Proof.
  induction whens as [|[r v] whens IH]; simpl.
  - rewrite elem_of_nil. split; [by intros [? ?]|done].
  - rewrite elem_of_cons. case_decide as Hr.
    + split; [by left|by eexists].
    + rewrite IH. split; [by right|]. by intros [?|?].
Qed.




(** What a miss returns when it returns rows. *)
Lemma hot_problems_miss_rows duration limit w rows w' :
  cache_lookup (hot_problems_key duration limit) w = None →
  hot_problems duration limit w = (Ok (VHot rows), w') →
  (rows = [] ∧ hot_candidates w duration = [])
  ∨ (∃ mx, is_max mx (ann_unique_user_count <$> hot_candidates w duration)
           ∧ 0 ≤ limit ∧ rows = hot_query duration limit mx w).
Proof.
  intros Hmiss Hret. rewrite hot_problems_miss_eq in Hret by done.
  destruct (hot_qs0 duration w) as [|mx0 qs0] eqn:Hqs0.
  - left. split; [congruence|]. by apply hot_qs0_nil.
  - right. case_decide as Hneg; [done|]. exists mx0.
    split; [by eapply hot_qs0_head|]. split; [lia|congruence].
Qed.

(** A miss with a non-negative limit does return rows. *)
Lemma hot_problems_miss_returns duration limit w :
  cache_lookup (hot_problems_key duration limit) w = None →
  0 ≤ limit →
  ∃ rows w', hot_problems duration limit w = (Ok (VHot rows), w').
Proof.
  intros Hmiss Hlimit. rewrite hot_problems_miss_eq by done.
  destruct (hot_qs0 duration w) as [|mx qs0]; [by eexists _, _|].
  rewrite decide_False by lia. by eexists _, _.
Qed.

(** The rows computed on a miss all have a distinct-submitter count above
    max(mx/3, 1), they are in descending order of the score, and there are
    at most [limit] of them (none when [limit] is negative). *)
Lemma hot_problems_miss_ranked duration limit w rows w' :
  cache_lookup (hot_problems_key duration limit) w = None →
  hot_problems duration limit w = (Ok (VHot rows), w') →
  (∀ mx r, is_max mx (ann_unique_user_count <$> hot_candidates w duration) →
           r ∈ rows →
           unique_user_count r = Z.of_nat (size (window_users w duration (hot_problem r)))
           ∧ mx < 3 * unique_user_count r ∧ 1 < unique_user_count r)
  ∧ StronglySorted row_ge rows
  ∧ Z.of_nat (length rows) ≤ Z.max 0 limit.
Proof.
  intros Hmiss Hret.
  destruct (hot_problems_miss_rows _ _ _ _ _ Hmiss Hret)
    as [[-> _]|(mx0 & Hmx0 & Hlimit & ->)].
  - split; [|split]; [|constructor|simpl; lia].
    intros mx r _ Hr. by apply elem_of_nil in Hr.
  - split; [|split].
    + intros mx r Hmx Hr. rewrite (is_max_unique _ _ _ Hmx Hmx0).
      apply hot_query_elem in Hr as (c & Hc & Hfloor & ->); simpl.
      apply popularity_floor_lt in Hfloor. split; [|done].
      apply hot_candidates_elem in Hc as (p & _ & _ & _ & ->); simpl.
      apply Count_distinct_user_size.
    + apply hot_query_sorted.
    + pose proof (hot_query_length duration limit mx0 w Hlimit). lia.
Qed.

Lemma hot_qs0_tied : hot_qs0 3600 world_tied = [2; 2].
Proof. vm_compute. reflexivity. Qed.

Lemma hot_problems_tied_eq :
  ∃ w', hot_problems 3600 10 world_tied
        = (Ok (VHot (hot_query 3600 10 2 world_tied)), w').
Proof.
  eexists. rewrite hot_problems_miss_eq by reflexivity.
  rewrite hot_qs0_tied. reflexivity.
Defined.

(** Both problems of [world_tied] pass the popularity floor and get the
    same score. *)
Lemma hot_query_tied :
  ∃ c1 c2, hot_query 3600 10 2 world_tied ≡ₚ [with_ordering 2 c1; with_ordering 2 c2]
           ∧ eval c1 (ordering_expr 2) = eval c2 (ordering_expr 2).
Proof.
  unfold hot_query, slice_to.
  match goal with |- context [filter ?P ?l] =>
    let r := eval vm_compute in (filter P l) in change (filter P l) with r
  end.
  eexists _, _. split.
  - rewrite take_ge.
    + rewrite merge_sort_Permutation. simpl. reflexivity.
    + rewrite merge_sort_Permutation. simpl. lia.
  - reflexivity.
Qed.

(** C2, as stated, fails: two problems with the same statistics get the
    same score, so the order is not strictly descending. *)
Lemma hot_problems_ties_not_strict :
  ∃ rows w', hot_problems 3600 10 world_tied = (Ok (VHot rows), w')
             ∧ ¬ StronglySorted row_gt rows.
Proof.
  destruct hot_problems_tied_eq as [w' Heq]. eexists _, w'. split; [exact Heq|].
  intros Hs. destruct hot_query_tied as (c1 & c2 & Hperm & Hscore).
  symmetry in Hperm.
  apply Permutation_length_2_inv in Hperm as [Hrows|Hrows]; rewrite Hrows in Hs;
    apply StronglySorted_inv in Hs as [_ Hs]; apply Forall_cons in Hs as [Hgt _];
    unfold row_gt, with_ordering in Hgt; cbn [ordering] in Hgt;
    rewrite Hscore in Hgt;
    (destruct (eval c2 (ordering_expr 2)); [by apply Rlt_irrefl in Hgt|done]).
Qed.









(** ** get_related_problems *)

Lemma Problem_by_id_id w i p : Problem_by_id w i = Some p → Problem.id p = i.
Proof.
  unfold Problem_by_id. intros Hfind. apply find_some in Hfind as [_ Hid].
  by apply bool_decide_eq_true in Hid.
Qed.

Lemma Problem_get_eq i w :
  Problem_get i w =
    match Problem_by_id w i with
    | Some p => (Ok p, push_query (DbQuery "problem") w)
    | None => (Raise DoesNotExist, push_query (DbQuery "problem") w)
    end.
Proof. unfold Problem_get, bind, db_select. by destruct (Problem_by_id w i). Qed.

Lemma mapM_Problem_get ids w ps w' :
  mapM Problem_get ids w = (Ok ps, w') → Problem.id <$> ps = ids.
Proof.
  revert w ps w'. induction ids as [|i ids IH]; intros w ps w' Hm; cbn [mapM] in Hm.
  - by injection Hm as <- _.
  - unfold bind in Hm. rewrite Problem_get_eq in Hm.
    destruct (Problem_by_id w i) as [p|] eqn:Hp; [|done].
    destruct (mapM Problem_get ids _) as [[ps'|err] w1] eqn:Hrest; [|done].
    injection Hm as <- _. simpl. f_equal.
    + by eapply Problem_by_id_id.
    + by eapply IH.
Qed.

Lemma list_slice_to_subseteq {A} limit (l : list A) : list_slice_to limit l ⊆ l.
Proof. unfold list_slice_to. case_decide; apply subseteq_take. Qed.

Lemma list_slice_to_length {A} limit (l : list A) :
  0 ≤ limit → Z.of_nat (length (list_slice_to limit l)) ≤ limit.
Proof.
  intros Hl. unfold list_slice_to. rewrite decide_True by done.
  rewrite length_take. lia.
Qed.



Lemma user_completed_ids_ok profile w :
  ∃ v w1, user_completed_ids profile w = (Ok v, w1)
          ∧ problems w1 = problems w ∧ clock w1 = clock w
          ∧ ML_OUTPUT_PATH w1 = ML_OUTPUT_PATH w.
Proof.
  destruct (cache_lookup (user_complete_key profile) w) as [v|] eqn:Hc.
  - eexists _, _. split; [by apply user_completed_ids_hit|done].
  - eexists _, _. split; [by apply user_completed_ids_miss_eq|done].
Qed.

Section RecommenderProperties.
Variable is_visible : Z → Problem.t → bool.
Variable problem_neighbors : Problem.t → list Z → string → Z → list (Qc * Z).
Variable shuffle : string → list Z → list Z.
Variable strftime_dmY : Z → string.

Abbreviation recommend :=
  (get_related_problems is_visible problem_neighbors shuffle strftime_dmY).

(** C5: without a profile, or with the setting unset, the helper returns
    [None] and leaves the world as it is: nothing is added to the log of
    queries, neither a database query nor a query of the model, and the
    cache is not touched. *)
Theorem get_related_problems_disabled profile problem limit w :
  profile = None ∨ path_set (ML_OUTPUT_PATH w) = false →
  recommend profile problem limit w = (Ok None, w)
  ∧ queries (snd (recommend profile problem limit w)) = queries w.
Proof.
  intros Hoff.
  assert (Heq : recommend profile problem limit w = (Ok None, w)).
  { unfold get_related_problems.
    destruct profile as [profile|]; [|done].
    destruct Hoff as [?|Hpath]; [done|].
    unfold bind, read_ML_OUTPUT_PATH. by rewrite Hpath. }
  by rewrite Heq.
Qed.

Lemma get_related_problems_hit profile problem limit w v :
  path_set (ML_OUTPUT_PATH w) = true →
  cache_lookup (related_problems_key profile problem) w = Some v →
  recommend (Some profile) problem limit w = (Ok (Some v), w).
Proof.
  intros Hpath Hhit. unfold get_related_problems.
  unfold bind at 1, read_ML_OUTPUT_PATH. rewrite Hpath; simpl.
  unfold bind at 1, cache_get. by rewrite Hhit.
Qed.

(** The similarity model ranks the candidates it is given; Python's
    shuffle permutes its argument. *)
Hypothesis neighbors_among_candidates :
  ∀ problem candidates metric limit i,
    i ∈ (problem_neighbors problem candidates metric limit).*2 → i ∈ candidates.
Hypothesis shuffle_permutes : ∀ seed l, shuffle seed l ≡ₚ l.

(** What a miss computes. *)
Lemma get_related_problems_miss profile problem limit w res w' :
  cache_lookup (related_problems_key profile problem) w = None →
  recommend (Some profile) problem limit w
    = (Ok (Some (VProblems res)), w') →
  ∃ v w1 completed ids,
    user_completed_ids profile w = (Ok v, w1)
    ∧ id__in v = Ok completed
    ∧ Problem.id <$> res = list_slice_to limit ids
    ∧ ∀ i, i ∈ ids → i ≠ Problem.id problem ∧ i ∉ completed.
Proof.
  intros Hmiss Hret. unfold get_related_problems in Hret.
  unfold bind at 1, read_ML_OUTPUT_PATH in Hret.
  destruct (path_set (ML_OUTPUT_PATH w)); simpl in Hret; [|done].
  unfold bind at 1, cache_get in Hret. rewrite Hmiss in Hret.
  unfold bind at 1 in Hret.
  destruct (user_completed_ids profile w) as [[v|err] w1] eqn:Hcompleted; [|done].
  unfold bind at 1, lift_outcome in Hret.
  destruct (id__in v) as [completed|err] eqn:Hin; [|done].
  unfold bind, cf_problem_neighbors, db_select, read_clock in Hret.
  unfold bind in Hret.
  match type of Hret with
  | context [mapM Problem_get ?l ?w0] =>
      destruct (mapM Problem_get l w0) as [[ps|err] w2] eqn:Hget; [|done]
  end.
  simpl in Hret. injection Hret as <- _.
  apply mapM_Problem_get in Hget.
  eexists v, w1, completed, _. split; [done|]. split; [done|]. split; [exact Hget|].
  intros i Hi. rewrite shuffle_permutes in Hi.
  apply elem_of_elements, elem_of_list_to_set in Hi.
  rewrite fmap_app in Hi.
  apply elem_of_app in Hi as [Hi|Hi]; apply neighbors_among_candidates in Hi;
    unfold related_problemset in Hi;
    apply list_elem_of_filter in Hi as [Hne Hi];
    by apply list_elem_of_filter in Hi as [Hnc _].
Qed.



(** The list computed on a miss contains neither the target problem nor
    a problem of the completed set of the profile, and for a non-negative
    [limit] it has at most [limit] elements. *)
Lemma get_related_problems_miss_excludes profile problem limit w res w' :
  cache_lookup (related_problems_key profile problem) w = None →
  recommend (Some profile) problem limit w
    = (Ok (Some (VProblems res)), w') →
  (∀ p, p ∈ res → Problem.id p ≠ Problem.id problem)
  ∧ (∀ S w1, user_completed_ids profile w = (Ok (VIdSet S), w1) →
             ∀ p, p ∈ res → Problem.id p ∉ S)
  ∧ (0 ≤ limit → Z.of_nat (length res) ≤ limit).
Proof.
  intros Hmiss Hret.
  destruct (get_related_problems_miss _ _ _ _ _ _ Hmiss Hret)
    as (v & w1 & completed & ids & Hcompleted & Hin & Hres & Hids).
  assert (Hres_ids : ∀ p, p ∈ res → Problem.id p ∈ ids).
  { intros p Hp. apply (list_slice_to_subseteq limit).
    rewrite <- Hres. apply list_elem_of_fmap. by exists p. }
  split; [|split].
  - intros p Hp. by apply Hids, Hres_ids.
  - intros S w1' HS p Hp. rewrite Hcompleted in HS. injection HS as -> _.
    simpl in Hin. injection Hin as <-. by apply Hids, Hres_ids.
  - intros Hlimit. rewrite <- (length_fmap Problem.id), Hres.
    by apply list_slice_to_length.
Qed.
End RecommenderProperties.

Lemma get_related_problems_disabled_witness :
  related None aplusb 8 world_fresh = (Ok None, world_fresh)
  ∧ queries (snd (related None aplusb 8 world_fresh)) = queries world_fresh.
Proof.
  apply (get_related_problems_disabled all_visible first_candidates keep_order
           some_day None aplusb 8 world_fresh).
  left. reflexivity.
Defined.

Lemma first_candidates_among problem candidates metric limit i :
  i ∈ (first_candidates problem candidates metric limit).*2 → i ∈ candidates.
Proof.
  unfold first_candidates. rewrite <- list_fmap_compose. intros Hi.
  apply list_elem_of_fmap in Hi as (j & -> & Hj). simpl.
  by apply subseteq_take in Hj.
Defined.

Lemma keep_order_permutes seed l : keep_order seed l ≡ₚ l.
Proof. reflexivity. Defined.

(** C6, as stated, fails: the list is served from the cache for six hours.
    Alice solves [hello] after it was recommended; once her completed set
    is recomputed it contains [hello], and the cached list still does. *)
Lemma get_related_problems_stale_completed :
  ∃ res w' S w'',
    related (Some alice) aplusb 8 world_recommended_stale
      = (Ok (Some (VProblems res)), w')
    ∧ user_completed_ids alice world_recommended_stale = (Ok (VIdSet S), w'')
    ∧ ∃ p, p ∈ res ∧ Problem.id p ∈ S.
Proof.
  eexists _, _, _, _. split; [|split].
  - apply get_related_problems_hit; reflexivity.
  - by apply user_completed_ids_miss_eq.
  - exists hello. split.
    + repeat constructor.
    + apply elem_of_list_to_set. vm_compute. apply list_elem_of_here.
Qed.

(** The cache key names the profile and the problem but not [limit]: a
    list stored for one limit is served, whole, to a call with a smaller
    one. *)
Lemma get_related_problems_key_without_limit :
  ∃ res w',
    related (Some alice) aplusb 1 (snd (related (Some alice) aplusb 8 world_fresh))
      = (Ok (Some (VProblems res)), w')
    ∧ length res = 2%nat.
Proof.
  eexists _, _. split; [apply get_related_problems_hit; reflexivity|reflexivity].
Qed.

(** The queries of one computed recommendation, newest first: the
    completed set, the candidate queryset and the model for each metric,
    and one lookup per recommended problem. *)
Example related_queries :
  queries (snd (related (Some alice) aplusb 8 world_fresh))
  = [ DbQuery "problem"; DbQuery "problem";
      ModelQuery COSINE; DbQuery "problem";
      ModelQuery DOT; DbQuery "problem";
      DbQuery "submission" ].
Proof. vm_compute. reflexivity. Qed.

(** ** Cache keys *)

Lemma pretty_N_go_colon_free x s : colon_free s → colon_free (pretty_N_go x s).
Proof.
  revert s. induction (N.lt_wf_0 x) as [x _ IH]; intros s Hs.
  assert (x = 0 ∨ 0 < x)%N as [->|?] by lia.
  - by rewrite pretty_N_go_0.
  - rewrite pretty_N_go_step by done. apply IH.
    { by apply N.div_lt. }
    split; [|done]. unfold pretty_N_char. by repeat case_match.
Qed.

Lemma pretty_N_colon_free (x : N) : colon_free (pretty x).
Proof.
  unfold pretty, pretty_N. case_decide; [by split|].
  by apply pretty_N_go_colon_free.
Qed.

Lemma pretty_Z_colon_free (z : Z) : colon_free (pretty z).
Proof.
  unfold pretty, pretty_Z. destruct z as [|p|p].
  - by split.
  - apply pretty_N_colon_free.
  - split; [done|]. apply pretty_N_colon_free.
Qed.

Lemma colon_separated_inj a a' b b' :
  colon_free a → colon_free a' →
  a +:+ ":" +:+ b = a' +:+ ":" +:+ b' → a = a' ∧ b = b'.
Proof.
  revert a'. induction a as [|c a IH]; intros [|c' a'] Ha Ha' Heq;
    simpl in Ha, Ha', Heq.
  - by simplify_eq.
  - simplify_eq. by destruct Ha' as [? _].
  - simplify_eq. by destruct Ha as [? _].
  - injection Heq as -> Heq. destruct Ha as [_ Ha], Ha' as [_ Ha'].
    by destruct (IH a' Ha Ha' Heq) as [-> ->].
Qed.

Lemma user_complete_key_inj p p' :
  user_complete_key p = user_complete_key p' → Profile.id p = Profile.id p'.
Proof.
  unfold user_complete_key. intros Heq.
  apply (inj (String.append "user_complete:")) in Heq. by apply (inj pretty).
Qed.

Lemma user_attempted_key_inj p p' :
  user_attempted_key p = user_attempted_key p' → Profile.id p = Profile.id p'.
Proof.
  unfold user_attempted_key. intros Heq.
  apply (inj (String.append "user_attempted:")) in Heq. by apply (inj pretty).
Qed.

Lemma hot_problems_key_inj d l d' l' :
  hot_problems_key d l = hot_problems_key d' l' → d = d' ∧ l = l'.
Proof.
  unfold hot_problems_key. intros Heq.
  apply (inj (String.append "hot_problems:")) in Heq.
  apply colon_separated_inj in Heq as [Hd Hl]; try apply pretty_Z_colon_free.
  split; by apply (inj pretty).
Qed.

Lemma related_problems_key_inj p pr p' pr' :
  related_problems_key p pr = related_problems_key p' pr' →
  Profile.id p = Profile.id p' ∧ Problem.id pr = Problem.id pr'.
Proof.
  unfold related_problems_key. intros Heq.
  apply (inj (String.append "related_problems:")) in Heq.
  apply colon_separated_inj in Heq as [Hd Hl]; try apply pretty_Z_colon_free.
  split; by apply (inj pretty).
Qed.

(** Keys of different helpers differ in their prefix. *)
Ltac other_key :=
  match goal with
  | H : _ = _ |- _ =>
      unfold user_complete_key, user_attempted_key, hot_problems_key,
             related_problems_key in H; discriminate H
  end.

(** The helpers read a profile through its id only. *)
Lemma user_completed_ids_same_id p p' w :
  Profile.id p = Profile.id p' → user_completed_ids p w = user_completed_ids p' w.
Proof.
  intros Hid. unfold user_completed_ids, user_complete_key, completed_query,
    completed_filter. by rewrite Hid.
Qed.

Lemma user_attempted_ids_same_id p p' w :
  Profile.id p = Profile.id p' → user_attempted_ids p w = user_attempted_ids p' w.
Proof.
  intros Hid. unfold user_attempted_ids, user_attempted_key, attempted_query,
    user_submissions. by rewrite Hid.
Qed.

Lemma mapM_Problem_get_frame ids w o w' :
  mapM Problem_get ids w = (o, w') → cache w' = cache w ∧ clock w' = clock w.
Proof.
  revert w o w'. induction ids as [|i ids IH]; intros w o w' Hm; cbn [mapM] in Hm.
  - by injection Hm as <- <-.
  - unfold bind in Hm. rewrite Problem_get_eq in Hm.
    destruct (Problem_by_id w i) as [p|]; [|by injection Hm as <- <-].
    destruct (mapM Problem_get ids _) as [[ps'|err] w1] eqn:Hrest;
      apply IH in Hrest as [Hc Ht]; by injection Hm as <- <-.
Qed.

Lemma user_completed_ids_clock profile w :
  clock (snd (user_completed_ids profile w)) = clock w.
Proof.
  destruct (cache_lookup (user_complete_key profile) w) as [v|] eqn:Hc.
  - by rewrite (user_completed_ids_hit _ _ _ Hc).
  - by rewrite (user_completed_ids_miss_eq _ _ Hc).
Qed.

(** ** The cache holds snapshots *)

Lemma get_result_data_frame args kwargs w :
  cache (snd (get_result_data args kwargs w)) = cache w
  ∧ clock (snd (get_result_data args kwargs w)) = clock w.
Proof.
  unfold get_result_data, bind. destruct args as [|qs rest].
  - unfold lift_outcome. by destruct (filter_kwargs kwargs (submissions w)).
  - by case_decide.
Qed.

Lemma cache_lookup_Some key w v :
  cache_lookup key w = Some v →
  ∃ e, cache w !! key = Some e ∧ clock w < entry_expires e ∧ entry_value e = v.
Proof.
  unfold cache_lookup. destruct (cache w !! key) as [e|]; [|done].
  case_bool_decide; [|done]. intros [= <-]. by exists e.
Qed.

Section CacheSoundness.
Variable is_visible : Z → Problem.t → bool.
Variable problem_neighbors : Problem.t → list Z → string → Z → list (Qc * Z).
Variable shuffle : string → list Z → list Z.
Variable strftime_dmY : Z → string.

Abbreviation recommend :=
  (get_related_problems is_visible problem_neighbors shuffle strftime_dmY).
Abbreviation stored :=
  (stored_by is_visible problem_neighbors shuffle strftime_dmY).
Abbreviation sound :=
  (cache_sound is_visible problem_neighbors shuffle strftime_dmY).
Abbreviation runs :=
  (run is_visible problem_neighbors shuffle strftime_dmY).

Lemma cache_sound_frame history history' w w' :
  cache w' = cache w → clock w ≤ clock w' → history ⊆ history' →
  sound history w → sound history' w'.
Proof.
  intros Hc Ht Hh Hs key e He. rewrite Hc in He.
  destruct (Hs key e He) as (w0 & Hin & Hw0 & Hst).
  exists w0. split; [by apply Hh|]. split; [lia|done].
Qed.

Lemma cache_sound_set history key v ttl w w0 :
  sound history w → w0 ∈ history → clock w0 ≤ clock w →
  stored key (mk_entry v (clock w + ttl)) w0 →
  sound history (snd (cache_set key v ttl w)).
Proof.
  intros Hs Hin Hw0 Hst key' e He. simpl in He.
  destruct (decide (key = key')) as [<-|Hne].
  - rewrite lookup_insert_eq in He. injection He as <-. by exists w0.
  - rewrite lookup_insert_ne in He by done. by apply Hs.
Qed.

Lemma user_completed_ids_sound history profile w :
  w ∈ history → sound history w →
  sound history (snd (user_completed_ids profile w)).
Proof.
  intros Hin Hs.
  destruct (cache_lookup (user_complete_key profile) w) as [v|] eqn:Hc.
  - by rewrite (user_completed_ids_hit _ _ _ Hc).
  - rewrite (user_completed_ids_miss_eq _ _ Hc).
    cbn [snd]. apply (cache_sound_set _ _ _ _ _ w); [|done|done|].
    + by apply (cache_sound_frame history history w).
    + eapply stored_completed; [done|done|by apply user_completed_ids_miss_eq|done].
Qed.

Lemma user_attempted_ids_sound history profile w :
  w ∈ history → sound history w →
  sound history (snd (user_attempted_ids profile w)).
Proof.
  intros Hin Hs.
  destruct (cache_lookup (user_attempted_key profile) w) as [v|] eqn:Hc.
  - by rewrite (user_attempted_ids_hit _ _ _ Hc).
  - rewrite (user_attempted_ids_miss_eq _ _ Hc).
    cbn [snd]. apply (cache_sound_set _ _ _ _ _ w); [|done|done|].
    + by apply (cache_sound_frame history history w).
    + eapply stored_attempted; [done|done|by apply user_attempted_ids_miss_eq|done].
Qed.

Lemma hot_problems_sound history duration limit w :
  w ∈ history → sound history w →
  sound history (snd (hot_problems duration limit w)).
Proof.
  intros Hin Hs.
  destruct (cache_lookup (hot_problems_key duration limit) w) as [v|] eqn:Hc.
  - by rewrite (hot_problems_hit _ _ _ _ Hc).
  - pose proof (hot_problems_miss_eq _ _ _ Hc) as Heq. rewrite Heq.
    destruct (hot_qs0 duration w) as [|mx qs0];
      [by apply (cache_sound_frame history history w)|].
    case_decide; [by apply (cache_sound_frame history history w)|].
    cbn [snd]. apply (cache_sound_set _ _ _ _ _ w); [|done|done|].
    + by apply (cache_sound_frame history history w).
    + eapply stored_hot; [done|done|exact Heq|done].
Qed.

Lemma get_related_problems_sound history profile problem limit w :
  w ∈ history → sound history w →
  sound history (snd (recommend profile problem limit w)).
Proof.
  intros Hin Hs. destruct profile as [profile|]; [|done].
  destruct (recommend (Some profile) problem limit w) as [o w'] eqn:Hret.
  pose proof Hret as Hret0.
  unfold get_related_problems in Hret.
  unfold bind at 1, read_ML_OUTPUT_PATH in Hret.
  destruct (path_set (ML_OUTPUT_PATH w)); simpl in Hret; [|by injection Hret as <- <-].
  unfold bind at 1, cache_get in Hret.
  destruct (cache_lookup (related_problems_key profile problem) w) as [v|] eqn:Hc;
    [by injection Hret as <- <-|].
  unfold bind at 1 in Hret.
  pose proof (user_completed_ids_sound history profile w Hin Hs) as Hs1.
  pose proof (user_completed_ids_clock profile w) as Ht1.
  destruct (user_completed_ids profile w) as [[v|err] w1]; cbn [snd] in Hs1, Ht1;
    [|by injection Hret as <- <-].
  unfold bind at 1, lift_outcome in Hret.
  destruct (id__in v) as [completed|err]; [|by injection Hret as <- <-].
  unfold bind, cf_problem_neighbors, db_select, read_clock in Hret.
  unfold bind in Hret.
  match type of Hret with
  | context [mapM Problem_get ?l ?w0] =>
      destruct (mapM Problem_get l w0) as [[ps|err] w2] eqn:Hget;
        apply mapM_Problem_get_frame in Hget as [Hc2 Ht2]; simpl in Hc2, Ht2
  end.
  - simpl in Hret. injection Hret as <- <-. cbn [snd].
    apply (cache_sound_set _ _ _ _ _ w); [|done|lia|].
    + apply (cache_sound_frame history history w1); [done|lia|done|done].
    + eapply stored_related; [done|done| |simpl; lia].
      by rewrite Hret0.
  - injection Hret as <- <-. cbn [snd].
    apply (cache_sound_frame history history w1); [done|lia|done|done].
Qed.

(** In every run the cache of the current world holds only what the
    helpers stored in worlds of the run. *)
Lemma history_grows (w : World) (history : list World) : history ⊆ w :: history.
Proof. intros w0 Hw0. by apply list_elem_of_further. Qed.

Lemma run_sound w past : runs (w :: past) → sound (w :: past) w.
Proof.
  intros Hrun. remember (w :: past) as trace eqn:Htrace.
  revert w past Htrace.
  induction Hrun as [ps ss now path|dt w0 past0 Hdt _ IH|ps ss w0 past0 _ IH
                    |profile w0 past0 _ IH|profile w0 past0 _ IH
                    |duration limit w0 past0 _ IH|args kwargs w0 past0 _ IH
                    |profile problem limit w0 past0 _ IH];
    intros w past Htrace; injection Htrace as <- <-;
    try specialize (IH w0 past0 eq_refl).
  - intros key e He. simpl in He. by rewrite lookup_empty in He.
  - apply (cache_sound_frame (w0 :: past0) _ w0); [done|simpl; lia|apply history_grows|done].
  - apply (cache_sound_frame (w0 :: past0) _ w0); [done|done|apply history_grows|done].
  - apply (cache_sound_frame (w0 :: past0) _ _ _ eq_refl); [done|apply history_grows|].
    apply user_completed_ids_sound; [apply list_elem_of_here|done].
  - apply (cache_sound_frame (w0 :: past0) _ _ _ eq_refl); [done|apply history_grows|].
    apply user_attempted_ids_sound; [apply list_elem_of_here|done].
  - apply (cache_sound_frame (w0 :: past0) _ _ _ eq_refl); [done|apply history_grows|].
    apply hot_problems_sound; [apply list_elem_of_here|done].
  - destruct (get_result_data_frame args kwargs w0) as [Hc Ht].
    apply (cache_sound_frame (w0 :: past0) _ w0); [done|lia|apply history_grows|done].
  - apply (cache_sound_frame (w0 :: past0) _ _ _ eq_refl); [done|apply history_grows|].
    apply get_related_problems_sound; [apply list_elem_of_here|done].
Qed.

(** Whatever [user_completed_ids] returns was computed by it from the
    tables of a world of the run: the current one, or one less than a day
    old. *)
Lemma user_completed_ids_snapshot history profile w v w' :
  w ∈ history → sound history w →
  user_completed_ids profile w = (Ok v, w') →
  ∃ w0 w0', w0 ∈ history
            ∧ clock w0 ≤ clock w < clock w0 + 86400
            ∧ (cache_lookup (user_complete_key profile) w = None → w0 = w)
            ∧ cache_lookup (user_complete_key profile) w0 = None
            ∧ user_completed_ids profile w0 = (Ok v, w0').
Proof.
  intros Hin Hs Hret.
  destruct (cache_lookup (user_complete_key profile) w) as [v0|] eqn:Hc.
  - rewrite (user_completed_ids_hit _ _ _ Hc) in Hret. injection Hret as <- <-.
    apply cache_lookup_Some in Hc as (e & He & Hexp & <-).
    destruct (Hs _ _ He) as (w0 & Hin0 & Hw0 & Hst).
    destruct Hst as [p0 w0' Hkey Hmiss Hcall Hexp0| | |]; try other_key.
    exists w0, w0'. apply user_complete_key_inj in Hkey as Hid.
    rewrite (user_completed_ids_same_id profile p0) by done.
    rewrite Hkey in *. repeat split; (done || lia).
  - exists w, w'. repeat split; (done || lia).
Qed.

Lemma user_attempted_ids_snapshot history profile w v w' :
  w ∈ history → sound history w →
  user_attempted_ids profile w = (Ok v, w') →
  ∃ w0 w0', w0 ∈ history
            ∧ clock w0 ≤ clock w < clock w0 + 86400
            ∧ (cache_lookup (user_attempted_key profile) w = None → w0 = w)
            ∧ cache_lookup (user_attempted_key profile) w0 = None
            ∧ user_attempted_ids profile w0 = (Ok v, w0').
Proof.
  intros Hin Hs Hret.
  destruct (cache_lookup (user_attempted_key profile) w) as [v0|] eqn:Hc.
  - rewrite (user_attempted_ids_hit _ _ _ Hc) in Hret. injection Hret as <- <-.
    apply cache_lookup_Some in Hc as (e & He & Hexp & <-).
    destruct (Hs _ _ He) as (w0 & Hin0 & Hw0 & Hst).
    destruct Hst as [|p0 w0' Hkey Hmiss Hcall Hexp0| |]; try other_key.
    exists w0, w0'. apply user_attempted_key_inj in Hkey as Hid.
    rewrite (user_attempted_ids_same_id profile p0) by done.
    rewrite Hkey in *. repeat split; (done || lia).
  - exists w, w'. repeat split; (done || lia).
Qed.

Lemma hot_problems_snapshot history duration limit w v w' :
  w ∈ history → sound history w →
  hot_problems duration limit w = (Ok v, w') →
  ∃ w0 w0', w0 ∈ history
            ∧ clock w0 ≤ clock w < clock w0 + 900
            ∧ (cache_lookup (hot_problems_key duration limit) w = None → w0 = w)
            ∧ cache_lookup (hot_problems_key duration limit) w0 = None
            ∧ hot_problems duration limit w0 = (Ok v, w0').
Proof.
  intros Hin Hs Hret.
  destruct (cache_lookup (hot_problems_key duration limit) w) as [v0|] eqn:Hc.
  - rewrite (hot_problems_hit _ _ _ _ Hc) in Hret. injection Hret as <- <-.
    apply cache_lookup_Some in Hc as (e & He & Hexp & <-).
    destruct (Hs _ _ He) as (w0 & Hin0 & Hw0 & Hst).
    destruct Hst as [| |d0 l0 w0' Hkey Hmiss Hcall Hexp0|]; try other_key.
    exists w0, w0'. apply hot_problems_key_inj in Hkey as [-> ->].
    repeat split; (done || lia).
  - exists w, w'. repeat split; (done || lia).
Qed.

Lemma get_related_problems_snapshot history profile problem limit w v w' :
  w ∈ history → sound history w →
  recommend (Some profile) problem limit w = (Ok (Some v), w') →
  ∃ w0 w0' profile0 problem0 limit0,
    w0 ∈ history
    ∧ clock w0 ≤ clock w < clock w0 + 21600
    ∧ (cache_lookup (related_problems_key profile problem) w = None →
       w0 = w ∧ profile0 = profile ∧ problem0 = problem ∧ limit0 = limit)
    ∧ Profile.id profile0 = Profile.id profile
    ∧ Problem.id problem0 = Problem.id problem
    ∧ cache_lookup (related_problems_key profile0 problem0) w0 = None
    ∧ recommend (Some profile0) problem0 limit0 w0 = (Ok (Some v), w0').
Proof.
  intros Hin Hs Hret.
  destruct (cache_lookup (related_problems_key profile problem) w) as [v0|] eqn:Hc.
  - assert (Hpath : path_set (ML_OUTPUT_PATH w) = true).
    { unfold get_related_problems, bind at 1, read_ML_OUTPUT_PATH in Hret.
      by destruct (path_set (ML_OUTPUT_PATH w)). }
    rewrite (get_related_problems_hit _ _ _ _ _ _ _ _ _ Hpath Hc) in Hret.
    injection Hret as <- <-.
    apply cache_lookup_Some in Hc as (e & He & Hexp & <-).
    destruct (Hs _ _ He) as (w0 & Hin0 & Hw0 & Hst).
    destruct Hst as [| | |p0 pr0 l0 w0' Hkey Hmiss Hcall Hexp0]; try other_key.
    exists w0, w0', p0, pr0, l0.
    apply related_problems_key_inj in Hkey as Hids. destruct Hids as [Hp Hpr].
    rewrite Hkey in Hmiss. repeat split; (done || lia).
  - exists w, w', profile, problem, limit.
    repeat split; (done || lia).
Qed.

(** C1, as amended: in every run, [user_completed_ids] returns exactly the
    ids of the problems for which some submission of the profile with
    verdict AC has points equal to the problem's points, in the tables of
    the world in which the set was computed: the current one on a cache
    miss, an earlier one of the run, less than a day old, otherwise. *)
Theorem user_completed_ids_exact profile w past :
  runs (w :: past) →
  ∃ S w' w0,
    user_completed_ids profile w = (Ok (VIdSet S), w')
    ∧ w0 ∈ w :: past
    ∧ clock w0 ≤ clock w < clock w0 + 86400
    ∧ (cache_lookup (user_complete_key profile) w = None → w0 = w)
    ∧ ∀ pid, pid ∈ S ↔ accepted_full_points_by w0 profile pid.
Proof.
  intros Hrun. destruct (user_completed_ids_ok profile w) as (v & w' & Hret & _).
  destruct (user_completed_ids_snapshot (w :: past) _ _ _ _
              (list_elem_of_here _ _) (run_sound _ _ Hrun) Hret)
    as (w0 & w0' & Hin & Htime & Hfresh & Hmiss & Hcall).
  destruct (user_completed_ids_miss profile w0 Hmiss) as (S & w0'' & Hcall' & HS & _).
  rewrite Hcall in Hcall'. injection Hcall' as -> _.
  by exists S, w', w0.
Qed.

(** C2, as amended: in every run, every problem in the sequence returned
    by [hot_problems] had a distinct-submitter count above max(mx/3, 1) in
    the world in which the sequence was computed (the current one on a
    cache miss, an earlier one of the run, less than 900 seconds old,
    otherwise), the sequence is in descending, not necessarily strictly
    descending, order of the score, and its length does not exceed [limit]
    (it is empty when [limit] is negative). *)
Theorem hot_problems_ranking duration limit w past rows w' :
  runs (w :: past) →
  hot_problems duration limit w = (Ok (VHot rows), w') →
  ∃ w0,
    w0 ∈ w :: past
    ∧ clock w0 ≤ clock w < clock w0 + 900
    ∧ (cache_lookup (hot_problems_key duration limit) w = None → w0 = w)
    ∧ (∀ mx r, is_max mx (ann_unique_user_count <$> hot_candidates w0 duration) →
               r ∈ rows →
               unique_user_count r
               = Z.of_nat (size (window_users w0 duration (hot_problem r)))
               ∧ mx < 3 * unique_user_count r ∧ 1 < unique_user_count r)
    ∧ StronglySorted row_ge rows
    ∧ Z.of_nat (length rows) ≤ Z.max 0 limit.
Proof.
  intros Hrun Hret.
  destruct (hot_problems_snapshot (w :: past) _ _ _ _ _
              (list_elem_of_here _ _) (run_sound _ _ Hrun) Hret)
    as (w0 & w0' & Hin & Htime & Hfresh & Hmiss & Hcall).
  exists w0. split; [done|]. split; [done|]. split; [done|].
  by apply (hot_problems_miss_ranked duration limit w0 rows w0').
Qed.


(** The similarity model ranks the candidates it is given; Python's
    shuffle permutes its argument. *)
Hypothesis neighbors_among_candidates :
  ∀ problem candidates metric limit i,
    i ∈ (problem_neighbors problem candidates metric limit).*2 → i ∈ candidates.
Hypothesis shuffle_permutes : ∀ seed l, shuffle seed l ≡ₚ l.

(** C6, as amended: in every run, the list returned by
    [get_related_problems] never contains the target problem, and it
    contains no problem of the completed set that [user_completed_ids]
    returned in the world in which the list was computed (the current one
    on a cache miss, an earlier one of the run, less than six hours old,
    otherwise); a list computed in the current world, for a non-negative
    [limit], has at most [limit] elements. *)
Theorem get_related_problems_exclusions profile problem limit w past res w' :
  runs (w :: past) →
  recommend (Some profile) problem limit w = (Ok (Some (VProblems res)), w') →
  ∃ w0,
    w0 ∈ w :: past
    ∧ clock w0 ≤ clock w < clock w0 + 21600
    ∧ (cache_lookup (related_problems_key profile problem) w = None → w0 = w)
    ∧ (∀ p, p ∈ res → Problem.id p ≠ Problem.id problem)
    ∧ (∀ S w1, user_completed_ids profile w0 = (Ok (VIdSet S), w1) →
               ∀ p, p ∈ res → Problem.id p ∉ S)
    ∧ (cache_lookup (related_problems_key profile problem) w = None →
       0 ≤ limit → Z.of_nat (length res) ≤ limit).
Proof.
  intros Hrun Hret.
  destruct (get_related_problems_snapshot (w :: past) _ _ _ _ _ _
              (list_elem_of_here _ _) (run_sound _ _ Hrun) Hret)
    as (w0 & w0' & profile0 & problem0 & limit0
        & Hin & Htime & Hfresh & Hprofile & Hproblem & Hmiss & Hcall).
  destruct (get_related_problems_miss_excludes is_visible problem_neighbors shuffle
              strftime_dmY neighbors_among_candidates shuffle_permutes
              profile0 problem0 limit0 w0 res w0' Hmiss Hcall)
    as (Htarget & Hcompleted & Hlength).
  exists w0. split; [done|]. split; [done|]. split; [by intros Hc; apply Hfresh|].
  split; [|split].
  - intros p Hp. rewrite <- Hproblem. by apply Htarget.
  - intros S w1 HS. apply (Hcompleted S w1).
    by rewrite (user_completed_ids_same_id profile0 profile).
  - intros Hc. destruct (Hfresh Hc) as (_ & _ & _ & <-). exact Hlength.
Qed.
End CacheSoundness.

(** ** The theorems at work on cached results *)

Lemma run_partial_cached :
  run all_visible first_candidates keep_order some_day
      (world_partial_cached :: past_partial_cached).
Proof. apply run_tick; [lia|]. apply run_completed, run_start. Defined.

Lemma run_tied_cached :
  run all_visible first_candidates keep_order some_day
      (world_tied_cached :: past_tied_cached).
Proof. apply run_tick; [lia|]. apply run_hot, run_start. Defined.

Lemma run_fresh_cached :
  run all_visible first_candidates keep_order some_day
      (world_fresh_cached :: past_fresh_cached).
Proof. apply run_tick; [lia|]. apply run_related, run_start. Defined.

Lemma user_completed_ids_exact_witness :
  ∃ S w' w0,
    user_completed_ids alice world_partial_cached = (Ok (VIdSet S), w')
    ∧ w0 ∈ world_partial_cached :: past_partial_cached
    ∧ clock w0 ≤ clock world_partial_cached < clock w0 + 86400
    ∧ (cache_lookup (user_complete_key alice) world_partial_cached = None →
       w0 = world_partial_cached)
    ∧ ∀ pid, pid ∈ S ↔ accepted_full_points_by w0 alice pid.
Proof.
  apply (user_completed_ids_exact all_visible first_candidates keep_order some_day
           alice world_partial_cached past_partial_cached).
  apply run_partial_cached.
Defined.

Lemma hot_problems_tied_cached_eq :
  hot_problems 3600 10 world_tied_cached
  = (Ok (VHot (hot_query 3600 10 2 world_tied)), world_tied_cached).
Proof.
  apply hot_problems_hit. unfold world_tied_cached.
  destruct hot_problems_tied_eq as [w' Heq]. rewrite Heq.
  rewrite hot_problems_miss_eq in Heq by reflexivity.
  rewrite hot_qs0_tied in Heq. simpl in Heq. injection Heq as <-.
  reflexivity.
Defined.

Lemma hot_problems_ranking_witness :
  ∃ w0,
    w0 ∈ world_tied_cached :: past_tied_cached
    ∧ clock w0 ≤ clock world_tied_cached < clock w0 + 900
    ∧ (cache_lookup (hot_problems_key 3600 10) world_tied_cached = None →
       w0 = world_tied_cached)
    ∧ (∀ mx r, is_max mx (ann_unique_user_count <$> hot_candidates w0 3600) →
               r ∈ hot_query 3600 10 2 world_tied →
               unique_user_count r
               = Z.of_nat (size (window_users w0 3600 (hot_problem r)))
               ∧ mx < 3 * unique_user_count r ∧ 1 < unique_user_count r)
    ∧ StronglySorted row_ge (hot_query 3600 10 2 world_tied)
    ∧ Z.of_nat (length (hot_query 3600 10 2 world_tied)) ≤ Z.max 0 10.
Proof.
  apply (hot_problems_ranking all_visible first_candidates keep_order some_day
           3600 10 world_tied_cached past_tied_cached _ world_tied_cached).
  - apply run_tied_cached.
  - apply hot_problems_tied_cached_eq.
Defined.


Lemma get_related_problems_exclusions_witness :
  ∃ w0,
    w0 ∈ world_fresh_cached :: past_fresh_cached
    ∧ clock w0 ≤ clock world_fresh_cached < clock w0 + 21600
    ∧ (cache_lookup (related_problems_key alice aplusb) world_fresh_cached = None →
       w0 = world_fresh_cached)
    ∧ (∀ p, p ∈ [sorting; hello] → Problem.id p ≠ Problem.id aplusb)
    ∧ (∀ S w1, user_completed_ids alice w0 = (Ok (VIdSet S), w1) →
               ∀ p, p ∈ [sorting; hello] → Problem.id p ∉ S)
    ∧ (cache_lookup (related_problems_key alice aplusb) world_fresh_cached = None →
       0 ≤ 1 → Z.of_nat (length [sorting; hello]) ≤ 1).
Proof.
  apply (get_related_problems_exclusions all_visible first_candidates keep_order
           some_day first_candidates_among keep_order_permutes
           alice aplusb 1 world_fresh_cached past_fresh_cached
           [sorting; hello] world_fresh_cached).
  - apply run_fresh_cached.
  - vm_compute. reflexivity.
Defined.

(** ** user_authored_ids, user_editable_ids, editable_problems *)

Lemma inner_join_elem links p i :
  i ∈ inner_join links p ↔ (Problem.id p, i) ∈ links.
Proof.
  unfold inner_join. rewrite list_elem_of_fmap. split.
  - intros ([pid j] & -> & Hl). apply list_elem_of_filter in Hl as [Hp Hl].
    simpl in *. by subst.
  - intros Hl. exists (Problem.id p, i). split; [done|].
    by apply list_elem_of_filter.
Qed.

Lemma left_join_Some links p i :
  Some i ∈ left_join links p ↔ (Problem.id p, i) ∈ links.
Proof.
  rewrite <- inner_join_elem. unfold left_join.
  destruct (inner_join links p) as [|j ids] eqn:Hj.
  - rewrite list_elem_of_singleton, elem_of_nil. split; [done|tauto].
  - rewrite list_elem_of_fmap. split.
    + by intros (k & [= ->] & Hk).
    + intros Hk. by exists i.
Qed.

Lemma left_join_nonempty links p : left_join links p ≠ [].
Proof. unfold left_join. by destruct (inner_join links p). Qed.


(** The rows that the two LEFT OUTER JOINs and the condition leave of one
    problem. *)
Lemma joined_rows_elem {A} links1 links2 p (P : option Z → option Z → Prop)
    `{∀ a c, Decision (P a c)} (x y : A) :
  y ∈ (a ← left_join links1 p; c ← left_join links2 p;
       if decide (P a c) then [x] else []) ↔
  y = x ∧ ∃ a c, a ∈ left_join links1 p ∧ c ∈ left_join links2 p ∧ P a c.
Proof.
  rewrite list_elem_of_bind. split.
  - intros (a & Hrow & Ha). apply list_elem_of_bind in Hrow as (c & Hrow & Hc).
    case_decide; [|by apply elem_of_nil in Hrow].
    apply list_elem_of_singleton in Hrow. split; [done|]. by exists a, c.
  - intros (-> & a & c & Ha & Hc & HP). exists a. split; [|done].
    apply list_elem_of_bind. exists c. split; [|done].
    rewrite decide_True by done. apply list_elem_of_here.
Qed.

Lemma left_join_choice links1 links2 p i (Q : Prop) :
  (∃ a c, a ∈ left_join links1 p ∧ c ∈ left_join links2 p
          ∧ (a = Some i ∨ c = Some i ∨ Q)) ↔
  (Problem.id p, i) ∈ links1 ∨ (Problem.id p, i) ∈ links2 ∨ Q.
Proof.
  split.
  - intros (a & c & Ha & Hc & [->|[->|HQ]]).
    + left. by apply left_join_Some.
    + right; left. by apply left_join_Some.
    + by right; right.
  - destruct (left_join links1 p) as [|a0 l1] eqn:H1;
      [by apply left_join_nonempty in H1|].
    destruct (left_join links2 p) as [|c0 l2] eqn:H2;
      [by apply left_join_nonempty in H2|].
    intros [Hl|[Hl|HQ]].
    + apply (left_join_Some links1) in Hl. rewrite H1 in Hl.
      exists (Some i), c0. split; [done|]. split; [apply list_elem_of_here|by left].
    + apply (left_join_Some links2) in Hl. rewrite H2 in Hl.
      exists a0, (Some i). split; [apply list_elem_of_here|]. split; [done|].
      by right; left.
    + exists a0, c0. split; [apply list_elem_of_here|].
      split; [apply list_elem_of_here|]. by right; right.
Qed.

Lemma editable_query_elem staff profile w pid :
  pid ∈ editable_query staff profile w ↔
  ∃ p, p ∈ problems w ∧ Problem.id p = pid
       ∧ ((pid, Profile.id profile) ∈ problem_authors staff
          ∨ (pid, Profile.id profile) ∈ problem_curators staff).
Proof.
  unfold editable_query. rewrite list_elem_of_bind. split.
  - intros (p & Hrow & Hp).
    apply (joined_rows_elem _ _ p
             (λ a c, a = Some (Profile.id profile) ∨ c = Some (Profile.id profile)))
      in Hrow as [-> Hac].
    exists p. split; [done|]. split; [done|].
    destruct Hac as (a & c & Ha & Hc & [-> | ->]);
      [left|right]; by apply left_join_Some.
  - intros (p & Hp & <- & Hlink). exists p. split; [|done].
    apply (joined_rows_elem _ _ p
             (λ a c, a = Some (Profile.id profile) ∨ c = Some (Profile.id profile))).
    split; [done|].
    destruct (left_join_choice (problem_authors staff) (problem_curators staff) p
                (Profile.id profile) False) as [_ Hch].
    destruct Hch as (a & c & Ha & Hc & Hac); [tauto|].
    exists a, c. tauto.
Qed.


(** The rows that the OR filter of [editable_problems] keeps. *)
Lemma editable_rows_elem staff i (Q : Problem.t → Prop) `{∀ q, Decision (Q q)}
    (ps : list Problem.t) p :
  p ∈ (q ← ps;
       a ← left_join (problem_authors staff) q;
       c ← left_join (problem_curators staff) q;
       if decide (a = Some i ∨ c = Some i ∨ Q q) then [q] else []) ↔
  p ∈ ps
  ∧ ((Problem.id p, i) ∈ problem_authors staff
     ∨ (Problem.id p, i) ∈ problem_curators staff
     ∨ Q p).
Proof.
  rewrite list_elem_of_bind. split.
  - intros (q & Hrow & Hq).
    apply (joined_rows_elem _ _ q (λ a c, a = Some i ∨ c = Some i ∨ Q q))
      in Hrow as [-> Hac].
    split; [done|]. by apply left_join_choice in Hac.
  - intros [Hp Hwho]. exists p. split; [|done].
    apply (joined_rows_elem _ _ p (λ a c, a = Some i ∨ c = Some i ∨ Q p)).
    split; [done|]. by apply left_join_choice.
Qed.

(** X2: who gets a problem from [editable_problems]: everybody with the
    permission to edit all problems; otherwise the authors and curators of
    the problem and, for a public problem, who may edit public problems.
    The profile is the one given, by default the user's own. *)
Theorem editable_problems_who staff user profile w p :
  p ∈ editable_problems staff user profile w ↔
  p ∈ problems w
  ∧ (User.has_perm user "judge.edit_all_problem" = true
     ∨ (Problem.id p, Profile.id (default (User.profile user) profile))
         ∈ problem_authors staff
     ∨ (Problem.id p, Profile.id (default (User.profile user) profile))
         ∈ problem_curators staff
     ∨ (User.has_perm user "judge.edit_public_problem" = true
        ∧ Problem.is_public p = true)).
Proof.
  unfold editable_problems.
  replace (match profile with Some profile0 => profile0 | None => User.profile user end)
    with (default (User.profile user) profile) by by destruct profile.
  destruct (User.has_perm user "judge.edit_all_problem"); simpl.
  - split; [intros Hp; split; [done|by left]|by intros [Hp _]].
  - rewrite (editable_rows_elem staff _
               (λ q, User.has_perm user "judge.edit_public_problem" = true
                     ∧ Problem.is_public q = true)).
    split; [intros [Hp Hwho]; split; [done|by right]|].
    by intros [Hp [?|Hwho]].
Qed.

(** X3: for a user with neither permission, the ids of the problems of
    [editable_problems] are exactly the set of [user_editable_ids] of the
    user's profile. *)
Theorem editable_problems_ids staff user w :
  User.has_perm user "judge.edit_all_problem" = false →
  User.has_perm user "judge.edit_public_problem" = false →
  ∃ editable w',
    user_editable_ids staff (User.profile user) w = (Ok editable, w')
    ∧ list_to_set (Problem.id <$> editable_problems staff user None w) = editable.
Proof.
  intros Hall Hpublic. eexists _, _. split; [reflexivity|].
  apply set_eq. intros pid.
  rewrite !elem_of_list_to_set, list_elem_of_fmap, editable_query_elem.
  unfold editable_problems. rewrite Hall, Hpublic. simpl.
  split.
  - intros (p & -> & Hp).
    apply (editable_rows_elem staff _ (λ q, false = true ∧ Problem.is_public q = true))
      in Hp as [Hp Hwho].
    exists p. split; [done|]. split; [done|].
    destruct Hwho as [?|[?|[? _]]]; try done; tauto.
  - intros (p & Hp & <- & Hwho). exists p. split; [done|].
    apply (editable_rows_elem staff _ (λ q, false = true ∧ Problem.is_public q = true)).
    split; [done|]. tauto.
Qed.



(** ** contest_completed_ids, contest_attempted_ids *)

Lemma contest_completed_ids_hit participation w v :
  Contest.cache_lookup (contest_complete_key participation) w = Some v →
  contest_completed_ids participation w = (Ok v, w).
Proof.
  intros Hhit. unfold contest_completed_ids, Contest.bind, Contest.cache_get.
  by rewrite Hhit.
Qed.

Lemma contest_completed_ids_miss_eq participation w :
  Contest.cache_lookup (contest_complete_key participation) w = None →
  contest_completed_ids participation w =
    (Ok (Contest.Base (VIdSet (list_to_set (contest_completed_query participation w)))),
     snd (Contest.cache_set (contest_complete_key participation)
            (Contest.Base (VIdSet (list_to_set (contest_completed_query participation w))))
            86400
            (snd (Contest.db_select "contestsubmission" (λ _, tt) w)))).
Proof.
  intros Hmiss. unfold contest_completed_ids, Contest.bind, Contest.cache_get.
  by rewrite Hmiss.
Qed.

Lemma contest_attempted_ids_miss_eq participation w :
  Contest.cache_lookup (contest_attempted_key participation) w = None →
  contest_attempted_ids participation w =
    (Ok (Contest.Attempted (dict_of (contest_attempted_query participation w))),
     snd (Contest.cache_set (contest_attempted_key participation)
            (Contest.Attempted (dict_of (contest_attempted_query participation w)))
            86400
            (snd (Contest.db_select "contestsubmission" (λ _, tt) w)))).
Proof.
  intros Hmiss. unfold contest_attempted_ids, Contest.bind, Contest.cache_get.
  by rewrite Hmiss.
Qed.

Lemma contest_cache_lookup_later key v w dt ss cps css :
  Contest.cache w !! key = Some (Contest.mk_entry v (Contest.clock w + 86400)) →
  Contest.cache_lookup key (Contest.set_tables ss cps css (Contest.tick dt w))
  = if bool_decide (dt < 86400) then Some v else None.
Proof.
  intros He. unfold Contest.cache_lookup; simpl. rewrite He; simpl.
  repeat case_bool_decide; (done || lia).
Qed.

Lemma contest_completed_query_elem participation w pid :
  pid ∈ contest_completed_query participation w ↔
  ∃ cs s cp,
    cs ∈ Contest.contest_submissions w
    ∧ ContestSubmission.participation cs = Participation.id participation
    ∧ submission_of w cs = Some s ∧ Submission.result s = AC
    ∧ contest_problem_of w cs = Some cp
    ∧ ContestSubmission.points cs = ContestProblem.points cp
    ∧ ContestProblem.problem cp = pid.
Proof.
  unfold contest_completed_query, participation_submissions.
  rewrite elem_of_remove_dups, list_elem_of_omap. split.
  - intros (cs & Hcs & Hpid).
    apply list_elem_of_filter in Hcs as [[Hres Hpts] Hcs].
    apply list_elem_of_filter in Hcs as [Hpart Hcs].
    destruct (submission_of w cs) as [s|] eqn:Hs; [|done].
    destruct (contest_problem_of w cs) as [cp|] eqn:Hcp; [|done].
    simpl in *. exists cs, s, cp. simplify_eq. by repeat split.
  - intros (cs & s & cp & Hcs & Hpart & Hs & Hres & Hcp & Hpts & <-).
    exists cs. rewrite Hcp. split; [|done].
    apply list_elem_of_filter. rewrite Hs, Hcp; simpl.
    split; [by rewrite Hres, Hpts|]. by apply list_elem_of_filter.
Qed.

(** X5: on a cache miss [contest_completed_ids] returns exactly the ids of
    the problems on which the participation has a record whose submission
    has verdict AC and whose points equal the points of the contest
    problem (full points with another verdict do not count), and stores
    the set. *)
Theorem contest_completed_ids_miss participation w :
  Contest.cache_lookup (contest_complete_key participation) w = None →
  ∃ S w',
    contest_completed_ids participation w = (Ok (Contest.Base (VIdSet S)), w')
    ∧ (∀ pid, pid ∈ S ↔
              ∃ cs s cp,
                cs ∈ Contest.contest_submissions w
                ∧ ContestSubmission.participation cs = Participation.id participation
                ∧ submission_of w cs = Some s ∧ Submission.result s = AC
                ∧ contest_problem_of w cs = Some cp
                ∧ ContestSubmission.points cs = ContestProblem.points cp
                ∧ ContestProblem.problem cp = pid)
    ∧ Contest.cache_lookup (contest_complete_key participation) w'
      = Some (Contest.Base (VIdSet S)).
Proof.
  intros Hmiss. eexists _, _.
  split; [by apply contest_completed_ids_miss_eq|]. split.
  - intros pid. rewrite elem_of_list_to_set. apply contest_completed_query_elem.
  - unfold Contest.cache_lookup; simpl. rewrite lookup_insert_eq; simpl.
    rewrite bool_decide_eq_true_2; [done|lia].
Qed.

(** X6: what [contest_completed_ids] has computed it returns again for
    86400 seconds, whatever happens to the tables and without a query;
    from then on it computes the set from the tables as they are. *)
Theorem contest_completed_ids_ttl participation w v w1 dt ss cps css :
  Contest.cache_lookup (contest_complete_key participation) w = None →
  contest_completed_ids participation w = (Ok v, w1) →
  0 ≤ dt →
  (dt < 86400 →
   contest_completed_ids participation
     (Contest.set_tables ss cps css (Contest.tick dt w1))
   = (Ok v, Contest.set_tables ss cps css (Contest.tick dt w1)))
  ∧ (86400 ≤ dt →
     ∃ w2,
       contest_completed_ids participation
         (Contest.set_tables ss cps css (Contest.tick dt w1))
       = (Ok (Contest.Base
                (VIdSet (list_to_set
                           (contest_completed_query participation
                              (Contest.set_tables ss cps css (Contest.tick dt w1)))))),
          w2)).
Proof.
  intros Hmiss Hret Hdt.
  rewrite (contest_completed_ids_miss_eq _ _ Hmiss) in Hret.
  injection Hret as <- <-.
  match goal with
  | |- context [Contest.set_tables ss cps css (Contest.tick dt ?w1)] =>
      pose proof (contest_cache_lookup_later (contest_complete_key participation)
                    (Contest.Base (VIdSet (list_to_set
                       (contest_completed_query participation w))))
                    w1 dt ss cps css) as Hlater
  end.
  simpl in Hlater. rewrite lookup_insert_eq in Hlater. specialize (Hlater eq_refl).
  split; intros Hbound.
  - apply contest_completed_ids_hit. rewrite Hlater.
    by rewrite bool_decide_eq_true_2.
  - eexists. apply contest_completed_ids_miss_eq. rewrite Hlater.
    rewrite bool_decide_eq_false_2; [done|lia].
Qed.

Lemma dict_of_lookup {V} (rows : list (Z * V)) k v :
  dict_of rows !! k = Some v → (k, v) ∈ rows.
Proof.
  unfold dict_of.
  assert (Hgen : ∀ m : gmap Z V,
            foldl (λ m kv, <[kv.1 := kv.2]> m) m rows !! k = Some v →
            m !! k = Some v ∨ (k, v) ∈ rows).
  { induction rows as [|[k' v'] rows IH]; intros m; simpl; [by left|].
    intros Hm. apply IH in Hm as [Hm|Hm].
    - destruct (decide (k' = k)) as [->|Hne].
      + rewrite lookup_insert_eq in Hm. injection Hm as ->. right. apply list_elem_of_here.
      + rewrite lookup_insert_ne in Hm by done. by left.
    - right. by apply list_elem_of_further. }
  intros Hm. apply Hgen in Hm as [Hm|Hm]; [by rewrite lookup_empty in Hm|done].
Qed.

Lemma Max_points_attained l m : Max_points l = Some m → m ∈ l.
Proof.
  revert m. induction l as [|x l IH]; intros m Hm; [done|].
  simpl in Hm. injection Hm as <-.
  destruct (Max_points l) as [m'|]; [|apply list_elem_of_here].
  unfold Qc_max. case_decide; [|apply list_elem_of_here].
  apply list_elem_of_further. by apply IH.
Qed.

Lemma contest_problem_of_elem w cs cp :
  contest_problem_of w cs = Some cp →
  cp ∈ Contest.contest_problems w ∧ ContestProblem.id cp = ContestSubmission.problem cs.
Proof.
  unfold contest_problem_of. intros Hf. apply find_some in Hf as [Hin Hid].
  split; [by apply list_elem_of_In|]. by apply bool_decide_eq_true in Hid.
Qed.

Lemma contest_joined_elem w participation cs cp :
  (cs, cp) ∈ contest_joined w participation ↔
  cs ∈ Contest.contest_submissions w
  ∧ ContestSubmission.participation cs = Participation.id participation
  ∧ contest_problem_of w cs = Some cp.
Proof.
  unfold contest_joined, participation_submissions.
  rewrite list_elem_of_omap. split.
  - intros (cs' & Hcs & Hrow). apply list_elem_of_filter in Hcs as [Hpart Hcs].
    destruct (contest_problem_of w cs') as [cp'|] eqn:Hcp; [|done].
    simpl in Hrow. by simplify_eq.
  - intros (Hcs & Hpart & Hcp). exists cs. rewrite Hcp. split; [|done].
    by apply list_elem_of_filter.
Qed.

(** What a row of the grouped query says. *)
Lemma contest_attempted_query_elem participation w pid a :
  (pid, a) ∈ contest_attempted_query participation w →
  (contest_achieved_points a < contest_max_points a)%Qc
  ∧ (∃ cs cp,
        cs ∈ Contest.contest_submissions w
        ∧ ContestSubmission.participation cs = Participation.id participation
        ∧ contest_problem_of w cs = Some cp
        ∧ ContestProblem.problem cp = pid
        ∧ ContestProblem.points cp = contest_max_points a
        ∧ ContestSubmission.points cs = contest_achieved_points a)
  ∧ (∀ cs cp,
        cs ∈ Contest.contest_submissions w →
        ContestSubmission.participation cs = Participation.id participation →
        contest_problem_of w cs = Some cp →
        ContestProblem.problem cp = pid →
        ContestProblem.points cp = contest_max_points a →
        (ContestSubmission.points cs ≤ contest_achieved_points a)%Qc).
Proof.
  unfold contest_attempted_query. intros Hin.
  apply list_elem_of_omap in Hin as ([gid gmax] & _ & Hrow).
  unfold contest_attempted_row in Hrow.
  destruct (Max_points _) as [best|] eqn:Hbest; [|done].
  case_bool_decide as Hlt; [|done]. simpl in Hrow, Hlt. injection Hrow as -> <-.
  simpl. split; [done|]. split.
  - apply Max_points_attained in Hbest.
    apply list_elem_of_fmap in Hbest as ([cs cp] & -> & Hmem).
    apply list_elem_of_filter in Hmem as [Hgroup Hjoin].
    apply contest_joined_elem in Hjoin as (Hcs & Hpart & Hcp).
    simpl in Hgroup. injection Hgroup as <- <-. by exists cs, cp.
  - intros cs cp Hcs Hpart Hcp Hpid Hmax.
    apply (Max_points_upper _ _ _ Hbest).
    apply list_elem_of_fmap. exists (cs, cp). split; [done|].
    apply list_elem_of_filter. split; [simpl; by rewrite Hpid, Hmax|].
    by apply contest_joined_elem.
Qed.

(** X7: every entry computed by [contest_attempted_ids] has its achieved
    points strictly below its maximum; the achieved points are those of one
    of the participation's records on a contest problem of that problem and
    maximum, and no such record has more. *)
Theorem contest_attempted_ids_entries participation w :
  Contest.cache_lookup (contest_attempted_key participation) w = None →
  ∃ m w',
    contest_attempted_ids participation w = (Ok (Contest.Attempted m), w')
    ∧ ∀ pid a, m !! pid = Some a →
        (contest_achieved_points a < contest_max_points a)%Qc
        ∧ (∃ cs cp,
              cs ∈ Contest.contest_submissions w
              ∧ ContestSubmission.participation cs = Participation.id participation
              ∧ contest_problem_of w cs = Some cp
              ∧ ContestProblem.problem cp = pid
              ∧ ContestProblem.points cp = contest_max_points a
              ∧ ContestSubmission.points cs = contest_achieved_points a)
        ∧ (∀ cs cp,
              cs ∈ Contest.contest_submissions w →
              ContestSubmission.participation cs = Participation.id participation →
              contest_problem_of w cs = Some cp →
              ContestProblem.problem cp = pid →
              ContestProblem.points cp = contest_max_points a →
              (ContestSubmission.points cs ≤ contest_achieved_points a)%Qc).
Proof.
  intros Hmiss. eexists _, _.
  split; [by apply contest_attempted_ids_miss_eq|].
  intros pid a Hm. by apply contest_attempted_query_elem, dict_of_lookup.
Qed.

Lemma contest_keys_differ participation participation' :
  contest_complete_key participation ≠ contest_attempted_key participation'.
Proof. intros H. discriminate H. Qed.

(** X8: when every problem has one number of points in the contest
    problems, a problem that [contest_completed_ids] returns is no key of
    the mapping [contest_attempted_ids] computes from the same tables. *)
Theorem contest_completed_attempted_disjoint participation w :
  Contest.cache_lookup (contest_complete_key participation) w = None →
  Contest.cache_lookup (contest_attempted_key participation) w = None →
  (∀ cp cp', cp ∈ Contest.contest_problems w → cp' ∈ Contest.contest_problems w →
             ContestProblem.problem cp = ContestProblem.problem cp' →
             ContestProblem.points cp = ContestProblem.points cp') →
  ∃ S m w1 w2,
    contest_completed_ids participation w = (Ok (Contest.Base (VIdSet S)), w1)
    ∧ contest_attempted_ids participation w1 = (Ok (Contest.Attempted m), w2)
    ∧ ∀ pid, pid ∈ S → m !! pid = None.
Proof.
  intros Hmiss Hmiss' Hpoints. eexists _, _, _, _.
  split; [by apply contest_completed_ids_miss_eq|].
  split.
  { apply contest_attempted_ids_miss_eq.
    unfold Contest.cache_lookup in *; simpl.
    rewrite lookup_insert_ne by apply contest_keys_differ. exact Hmiss'. }
  intros pid HS. apply elem_of_list_to_set in HS.
  apply contest_completed_query_elem in HS
    as (cs & s & cp & Hcs & Hpart & _ & _ & Hcp & Hpts & Hpid).
  destruct (dict_of _ !! pid) as [a|] eqn:Hm; [|done]. exfalso.
  apply dict_of_lookup, contest_attempted_query_elem in Hm as (Hlt & Hex & Hle).
  destruct Hex as (cs' & cp' & _ & _ & Hcp' & Hpid' & Hmax & _).
  simpl in Hcp'.
  apply contest_problem_of_elem in Hcp' as [Hin' _].
  pose proof (contest_problem_of_elem _ _ _ Hcp) as [Hin _].
  simpl in Hin'.
  assert (Heq : ContestProblem.points cp = contest_max_points a).
  { rewrite <- Hmax. apply Hpoints; [done..|]. by rewrite Hpid, Hpid'. }
  specialize (Hle cs cp Hcs Hpart Hcp Hpid Heq).
  rewrite Hpts, Heq in Hle. by apply Qclt_nge in Hlt.
Qed.

(** ** user_attempted_ids: the entries of the mapping *)

Lemma Max_id_attained l m : Max_id l = Some m → m ∈ l.
Proof.
  revert m. induction l as [|x l IH]; intros m Hm; [done|].
  simpl in Hm. injection Hm as <-.
  destruct (Max_id l) as [m'|]; [|apply list_elem_of_here].
  destruct (Z.max_spec x m') as [[_ ->]|[_ ->]]; [|apply list_elem_of_here].
  apply list_elem_of_further. by apply IH.
Qed.

Lemma Max_id_upper l m x : Max_id l = Some m → x ∈ l → x ≤ m.
Proof.
  revert m. induction l as [|y l IH]; intros m Hm Hx; [by apply elem_of_nil in Hx|].
  simpl in Hm. injection Hm as <-.
  apply elem_of_cons in Hx as [->|Hx].
  - destruct (Max_id l); lia.
  - destruct (Max_id l) as [m'|] eqn:Hl; [|by destruct l; [apply elem_of_nil in Hx|]].
    specialize (IH m' eq_refl Hx). lia.
Qed.

Lemma Max_points_is_Some l : l ≠ [] → is_Some (Max_points l).
Proof. by destruct l; [|eexists]. Qed.

Lemma Max_id_is_Some l : l ≠ [] → is_Some (Max_id l).
Proof. by destruct l; [|eexists]. Qed.

(** The submissions of a profile to a problem that exists are the group
    of that problem in the grouped query. *)
Lemma attempted_group_elem profile w pid s :
  is_Some (Problem_by_id w pid) →
  s ∈ filter (λ s, Submission.problem s = pid) (user_submissions w profile) ↔
  s ∈ submissions w ∧ Submission.user s = Profile.id profile
  ∧ Submission.problem s = pid.
Proof.
  intros Hp. unfold user_submissions.
  rewrite !list_elem_of_filter. unfold problem_of. split.
  - intros (Hpid & [Hu _] & Hs). done.
  - intros (Hs & Hu & Hpid). rewrite Hpid. done.
Qed.

Lemma attempted_row_Some profile w pid row :
  attempted_row w (user_submissions w profile) pid = Some row →
  ∃ p a, row = (pid, a)
    ∧ Problem_by_id w pid = Some p
    ∧ max_points a = Problem.points p
    ∧ attempt_code a = Problem.code p
    ∧ attempt_name a = Problem.name p
    ∧ (achieved_points a < max_points a)%Qc
    ∧ (∃ s, s ∈ submissions w ∧ Submission.user s = Profile.id profile
            ∧ Submission.problem s = pid
            ∧ Submission.points s = achieved_points a)
    ∧ (∀ s, s ∈ submissions w → Submission.user s = Profile.id profile →
            Submission.problem s = pid →
            (Submission.points s ≤ achieved_points a)%Qc)
    ∧ (∃ s, s ∈ submissions w ∧ Submission.user s = Profile.id profile
            ∧ Submission.problem s = pid
            ∧ Submission.id s = last_submission a)
    ∧ (∀ s, s ∈ submissions w → Submission.user s = Profile.id profile →
            Submission.problem s = pid →
            Submission.id s ≤ last_submission a).
Proof.
  unfold attempted_row. intros Hrow.
  destruct (Problem_by_id w pid) as [p|] eqn:Hp; [|done].
  destruct (Max_points _) as [best|] eqn:Hbest; [|done].
  destruct (Max_id _) as [last|] eqn:Hlast; [|done].
  case_bool_decide as Hlt; [|done]. injection Hrow as <-.
  assert (Hgroup := attempted_group_elem profile w pid).
  rewrite Hp in Hgroup.
  eexists p, _. split; [done|]. simpl. repeat split; try done.
  - apply Max_points_attained in Hbest.
    apply list_elem_of_fmap in Hbest as (s & -> & Hs).
    apply Hgroup in Hs as (? & ? & ?); [|by eexists]. by exists s.
  - intros s Hs Hu Hpid. apply (Max_points_upper _ _ _ Hbest).
    apply list_elem_of_fmap. exists s. split; [done|]. apply Hgroup; [by eexists|done].
  - apply Max_id_attained in Hlast.
    apply list_elem_of_fmap in Hlast as (s & -> & Hs).
    apply Hgroup in Hs as (? & ? & ?); [|by eexists]. by exists s.
  - intros s Hs Hu Hpid. apply (Max_id_upper _ _ _ Hlast).
    apply list_elem_of_fmap. exists s. split; [done|]. apply Hgroup; [by eexists|done].
Qed.

Lemma attempted_query_key profile w pid :
  pid ∈ (attempted_query profile w).*1 ↔
  ∃ p, Problem_by_id w pid = Some p
       ∧ (∃ s, s ∈ submissions w ∧ Submission.user s = Profile.id profile
               ∧ Submission.problem s = pid)
       ∧ (∀ s, s ∈ submissions w → Submission.user s = Profile.id profile →
               Submission.problem s = pid →
               (Submission.points s < Problem.points p)%Qc).
Proof.
  unfold attempted_query. split.
  - intros Hin. apply list_elem_of_fmap in Hin as ([pid' a'] & -> & Hin).
    apply list_elem_of_omap in Hin as (pid0 & _ & Hrow).
    apply attempted_row_Some in Hrow
      as (p & a & Heq & Hp & Hmax & _ & _ & Hlt & Hex & Hle & _).
    injection Heq as -> ->. simpl. exists p. split; [done|]. split.
    + destruct Hex as (s & ? & ? & ? & _). by exists s.
    + intros s Hs Hu Hpid. rewrite <- Hmax.
      eapply Qcle_lt_trans; [by apply Hle|done].
  - intros (p & Hp & (s0 & Hs0 & Hu0 & Hpid0) & Hall).
    assert (Hgroup := attempted_group_elem profile w pid).
    rewrite Hp in Hgroup.
    assert (Hs0' : s0 ∈ filter (λ s, Submission.problem s = pid)
                     (user_submissions w profile)).
    { apply Hgroup; [by eexists|done]. }
    destruct (Max_points_is_Some
                (Submission.points
                   <$> filter (λ s, Submission.problem s = pid)
                         (user_submissions w profile))) as [best Hbest].
    { intros Hnil. apply fmap_nil_inv in Hnil. rewrite Hnil in Hs0'.
      by apply elem_of_nil in Hs0'. }
    destruct (Max_id_is_Some
                (Submission.id
                   <$> filter (λ s, Submission.problem s = pid)
                         (user_submissions w profile))) as [last Hlast].
    { intros Hnil. apply fmap_nil_inv in Hnil. rewrite Hnil in Hs0'.
      by apply elem_of_nil in Hs0'. }
    apply list_elem_of_fmap.
    exists (pid, mk_attempt best (Problem.points p) last (Problem.code p) (Problem.name p)).
    split; [done|]. apply list_elem_of_omap. exists pid. split.
    + apply elem_of_remove_dups, list_elem_of_fmap. exists s0. split; [done|].
      by apply list_elem_of_filter in Hs0' as [_ ?].
    + unfold attempted_row. rewrite Hp, Hbest, Hlast.
      rewrite bool_decide_eq_true_2; [done|].
      apply Max_points_attained in Hbest.
      apply list_elem_of_fmap in Hbest as (s & -> & Hs).
      apply Hgroup in Hs as (? & ? & ?); [|by eexists]. by apply Hall.
Qed.

(** X9: on a cache miss the keys of the mapping of [user_attempted_ids]
    are exactly the problems of the table to which the profile has
    submitted and on which every one of its submissions has fewer points
    than the problem. *)
Theorem user_attempted_ids_keys profile w :
  cache_lookup (user_attempted_key profile) w = None →
  ∃ m w',
    user_attempted_ids profile w = (Ok (VAttempted m), w')
    ∧ ∀ pid, is_Some (m !! pid) ↔
        ∃ p, Problem_by_id w pid = Some p
             ∧ (∃ s, s ∈ submissions w ∧ Submission.user s = Profile.id profile
                     ∧ Submission.problem s = pid)
             ∧ (∀ s, s ∈ submissions w → Submission.user s = Profile.id profile →
                     Submission.problem s = pid →
                     (Submission.points s < Problem.points p)%Qc).
Proof.
  intros Hmiss. eexists _, _.
  split; [by apply user_attempted_ids_miss_eq|].
  intros pid. rewrite <- elem_of_dom, dom_dict_of. apply attempted_query_key.
Qed.

(** ** What the cache does to repeated calls *)

Lemma cache_lookup_later key v ttl w dt ps ss :
  cache w !! key = Some (mk_entry v (clock w + ttl)) →
  cache_lookup key (set_tables ps ss (tick dt w))
  = if bool_decide (dt < ttl) then Some v else None.
Proof.
  intros He. unfold cache_lookup; simpl. rewrite He; simpl.
  repeat case_bool_decide; (done || lia).
Qed.

(** X10: what [user_completed_ids] has computed it returns again for
    86400 seconds, whatever happens to the tables and without a query;
    from then on it computes the set from the tables as they are. *)
Theorem user_completed_ids_ttl profile w v w1 dt ps ss :
  cache_lookup (user_complete_key profile) w = None →
  user_completed_ids profile w = (Ok v, w1) →
  0 ≤ dt →
  (dt < 86400 →
   user_completed_ids profile (set_tables ps ss (tick dt w1))
   = (Ok v, set_tables ps ss (tick dt w1)))
  ∧ (86400 ≤ dt →
     ∃ w2,
       user_completed_ids profile (set_tables ps ss (tick dt w1))
       = (Ok (VIdSet (list_to_set
                        (completed_query profile (set_tables ps ss (tick dt w1))))),
          w2)).
Proof.
  intros Hmiss Hret Hdt.
  rewrite (user_completed_ids_miss_eq _ _ Hmiss) in Hret.
  injection Hret as <- <-.
  match goal with
  | |- context [set_tables ps ss (tick dt ?w1)] =>
      pose proof (cache_lookup_later (user_complete_key profile)
                    (VIdSet (list_to_set (completed_query profile w)))
                    86400 w1 dt ps ss) as Hlater
  end.
  simpl in Hlater. rewrite lookup_insert_eq in Hlater. specialize (Hlater eq_refl).
  split; intros Hbound.
  - apply user_completed_ids_hit. rewrite Hlater.
    by rewrite bool_decide_eq_true_2.
  - eexists. apply user_completed_ids_miss_eq. rewrite Hlater.
    rewrite bool_decide_eq_false_2; [done|lia].
Qed.

(** ** hot_problems: limits, empty results *)

Lemma hot_qs0_cons duration w p s :
  p ∈ problems w → Problem.is_public p = true →
  s ∈ submissions w → Submission.problem s = Problem.id p →
  clock w - duration < Submission.date s →
  ∃ mx qs0, hot_qs0 duration w = mx :: qs0.
Proof.
  intros Hp Hpub Hs Hpid Hdate.
  destruct (hot_qs0 duration w) as [|mx qs0] eqn:Hqs0; [|by eexists _, _].
  apply hot_qs0_nil in Hqs0.
  assert (Hc : annotate w duration p ∈ hot_candidates w duration).
  { apply hot_candidates_elem. exists p. repeat split; try done.
    intros Hnil.
    assert (Hin : s ∈ window_submissions w duration p).
    { by apply list_elem_of_filter. }
    rewrite Hnil in Hin. by apply elem_of_nil in Hin. }
  rewrite Hqs0 in Hc. by apply elem_of_nil in Hc.
Qed.

(** X11: with a negative [limit], and nothing in the cache, the helper
    returns the empty sequence as long as no public problem has a
    submission in the window; as soon as one has, the slice of the
    queryset refuses the bound and the call raises.  Nothing is stored
    either way. *)
Theorem hot_problems_negative_limit duration limit w :
  cache_lookup (hot_problems_key duration limit) w = None →
  limit < 0 →
  (hot_candidates w duration = [] →
   ∃ w', hot_problems duration limit w = (Ok (VHot []), w') ∧ cache w' = cache w)
  ∧ (∀ p s, p ∈ problems w → Problem.is_public p = true →
            s ∈ submissions w → Submission.problem s = Problem.id p →
            clock w - duration < Submission.date s →
            ∃ w', hot_problems duration limit w
                  = (Raise (AssertionError "Negative indexing is not supported."), w')
                  ∧ cache w' = cache w).
Proof.
  intros Hmiss Hneg. rewrite (hot_problems_miss_eq _ _ _ Hmiss). split.
  - intros Hnone. unfold hot_qs0. rewrite Hnone. by eexists.
  - intros p s Hp Hpub Hs Hpid Hdate.
    destruct (hot_qs0_cons duration w p s) as (mx & qs0 & ->); [done..|].
    rewrite decide_True by done. by eexists.
Qed.



(** X13: when public problems have submissions in the window but none has
    two distinct submitters, the result is empty, and, unlike the empty
    result for a quiet window, it is stored in the cache. *)
Theorem hot_problems_lone_submitters duration limit w :
  cache_lookup (hot_problems_key duration limit) w = None →
  0 ≤ limit →
  hot_candidates w duration ≠ [] →
  (∀ p, p ∈ problems w → Problem.is_public p = true →
        (size (window_users w duration p) ≤ 1)%nat) →
  ∃ w', hot_problems duration limit w = (Ok (VHot []), w')
        ∧ cache_lookup (hot_problems_key duration limit) w' = Some (VHot []).
Proof.
  intros Hmiss Hlimit Hsome Hlone.
  rewrite (hot_problems_miss_eq _ _ _ Hmiss).
  destruct (hot_qs0 duration w) as [|mx qs0] eqn:Hqs0;
    [by apply hot_qs0_nil in Hqs0|].
  rewrite decide_False by lia.
  assert (Hnil : hot_query duration limit mx w = []).
  { apply elem_of_nil_inv. intros r Hr.
    apply hot_query_elem in Hr as (c & Hc & Hfloor & _).
    apply popularity_floor_lt in Hfloor as [_ Hfloor].
    apply hot_candidates_elem in Hc as (p & Hp & Hpub & _ & ->).
    simpl in Hfloor. rewrite Count_distinct_user_size in Hfloor.
    specialize (Hlone p Hp Hpub). lia. }
  rewrite Hnil. eexists. split; [done|].
  apply (cache_lookup_set_eq _ _ 900
           (push_query (DbQuery "problem") (push_query (DbQuery "problem") w))).
  lia.
Qed.


(** ** hot_problems: the rows *)

Lemma length_remove_dups {A} `{EqDecision A} (l : list A) :
  (length (remove_dups l) ≤ length l)%nat.
Proof.
  induction l as [|x l IH]; simpl; [done|].
  case_decide; simpl; lia.
Qed.

Lemma Count_Case_mono whens whens' rows :
  (∀ s, is_Some (Case whens s) → is_Some (Case whens' s)) →
  0 ≤ Count (Case whens) rows ≤ Count (Case whens') rows
  ∧ Count (Case whens') rows ≤ Z.of_nat (length rows).
Proof.
  intros Himpl. unfold Count.
  rewrite <- (list_filter_filter_l (λ s, is_Some (Case whens s))
                (λ s, is_Some (Case whens' s)) rows) by done.
  pose proof (length_filter (λ s, is_Some (Case whens s))
                (filter (λ s, is_Some (Case whens' s)) rows)).
  pose proof (length_filter (λ s, is_Some (Case whens' s)) rows).
  lia.
Qed.

(** What every row of the final queryset satisfies. *)
Lemma hot_query_row duration limit mx w r :
  r ∈ hot_query duration limit mx w →
  hot_problem r ∈ problems w
  ∧ Problem.is_public (hot_problem r) = true
  ∧ 0 ≤ ac_volume r ≤ submission_volume r
  ∧ submission_volume r
    ≤ Z.of_nat (length (window_submissions w duration (hot_problem r)))
  ∧ unique_user_count r
    ≤ Z.of_nat (length (window_submissions w duration (hot_problem r))).
Proof.
  intros Hr. apply hot_query_elem in Hr as (c & Hc & _ & ->).
  apply hot_candidates_elem in Hc as (p & Hp & Hpub & _ & ->).
  cbn [with_ordering annotate hot_problem ac_volume submission_volume
       unique_user_count ann_problem ann_ac_volume ann_submission_volume
       ann_unique_user_count].
  split; [done|]. split; [done|].
  destruct (Count_Case_mono [(AC, 1)]
              [(AC, 1); (WA, 1); (IR, 1); (RTE, 1); (TLE, 1); (OLE, 1)]
              (window_submissions w duration p)) as [Hac Hsv].
  { intros s. rewrite !Case_is_Some. simpl. rewrite !elem_of_cons. tauto. }
  split; [done|]. split; [done|].
  unfold Count_distinct_user.
  pose proof (length_remove_dups (Submission.user <$> window_submissions w duration p)) as Hle.
  rewrite length_fmap in Hle. lia.
Qed.

Section Runs.
Variable is_visible : Z → Problem.t → bool.
Variable problem_neighbors : Problem.t → list Z → string → Z → list (Qc * Z).
Variable shuffle : string → list Z → list Z.
Variable strftime_dmY : Z → string.

Abbreviation recommend :=
  (get_related_problems is_visible problem_neighbors shuffle strftime_dmY).
Abbreviation runs :=
  (run is_visible problem_neighbors shuffle strftime_dmY).

(** X15: in every run, [hot_problems] with a non-negative limit returns a
    sequence of rows.  Each row is a public problem of the table of the
    world in which the sequence was computed (the current one, or one less
    than 900 seconds old); its accepted volume is at most its submission
    volume, and neither that nor its number of distinct submitters
    exceeds the number of submissions it has in the window. *)
Theorem hot_problems_rows_wellformed duration limit w past :
  runs (w :: past) →
  0 ≤ limit →
  ∃ rows w' w0,
    hot_problems duration limit w = (Ok (VHot rows), w')
    ∧ w0 ∈ w :: past
    ∧ clock w0 ≤ clock w < clock w0 + 900
    ∧ ∀ r, r ∈ rows →
        hot_problem r ∈ problems w0
        ∧ Problem.is_public (hot_problem r) = true
        ∧ 0 ≤ ac_volume r ≤ submission_volume r
        ∧ submission_volume r
          ≤ Z.of_nat (length (window_submissions w0 duration (hot_problem r)))
        ∧ unique_user_count r
          ≤ Z.of_nat (length (window_submissions w0 duration (hot_problem r))).
Proof.
  intros Hrun Hlimit.
  pose proof (run_sound _ _ _ _ _ _ Hrun) as Hsound.
  assert (Hcall : ∃ v w', hot_problems duration limit w = (Ok v, w')).
  { destruct (cache_lookup (hot_problems_key duration limit) w) as [v|] eqn:Hc.
    - eexists _, _. by apply hot_problems_hit.
    - destruct (hot_problems_miss_returns _ _ _ Hc Hlimit) as (rows & w' & ->).
      by eexists _, _. }
  destruct Hcall as (v & w' & Hret).
  destruct (hot_problems_snapshot _ _ _ _ _ _ _ _ _ _
              (list_elem_of_here _ _) Hsound Hret)
    as (w0 & w0' & Hin & Htime & _ & Hmiss & Hcall).
  destruct (hot_problems_miss_returns _ _ _ Hmiss Hlimit) as (rows & w0'' & Hcall').
  rewrite Hcall in Hcall'. injection Hcall' as -> _.
  exists rows, w', w0. split; [done|]. split; [done|]. split; [lia|].
  intros r Hr.
  destruct (hot_problems_miss_rows _ _ _ _ _ Hmiss Hcall)
    as [[-> _]|(mx & _ & _ & ->)]; [by apply elem_of_nil in Hr|].
  by apply hot_query_row in Hr.
Qed.

(** X16: in every run, [user_attempted_ids] returns a mapping.  Each entry
    describes a problem of the table of the world in which the mapping
    was computed (the current one, or one less than a day old): its code,
    name and points, the most points of the profile's submissions to it,
    which are fewer than the problem's points, and the largest id of these
    submissions. *)
Theorem user_attempted_ids_entries profile w past :
  runs (w :: past) →
  ∃ m w' w0,
    user_attempted_ids profile w = (Ok (VAttempted m), w')
    ∧ w0 ∈ w :: past
    ∧ clock w0 ≤ clock w < clock w0 + 86400
    ∧ (cache_lookup (user_attempted_key profile) w = None → w0 = w)
    ∧ ∀ pid a, m !! pid = Some a →
        ∃ p, Problem_by_id w0 pid = Some p
          ∧ max_points a = Problem.points p
          ∧ attempt_code a = Problem.code p
          ∧ attempt_name a = Problem.name p
          ∧ (achieved_points a < max_points a)%Qc
          ∧ (∃ s, s ∈ submissions w0 ∧ Submission.user s = Profile.id profile
                  ∧ Submission.problem s = pid
                  ∧ Submission.points s = achieved_points a)
          ∧ (∀ s, s ∈ submissions w0 → Submission.user s = Profile.id profile →
                  Submission.problem s = pid →
                  (Submission.points s ≤ achieved_points a)%Qc)
          ∧ (∃ s, s ∈ submissions w0 ∧ Submission.user s = Profile.id profile
                  ∧ Submission.problem s = pid
                  ∧ Submission.id s = last_submission a)
          ∧ (∀ s, s ∈ submissions w0 → Submission.user s = Profile.id profile →
                  Submission.problem s = pid →
                  Submission.id s ≤ last_submission a).
Proof.
  intros Hrun.
  pose proof (run_sound _ _ _ _ _ _ Hrun) as Hsound.
  assert (Hcall : ∃ v w', user_attempted_ids profile w = (Ok v, w')).
  { destruct (cache_lookup (user_attempted_key profile) w) as [v|] eqn:Hc.
    - eexists _, _. by apply user_attempted_ids_hit.
    - eexists _, _. by apply user_attempted_ids_miss_eq. }
  destruct Hcall as (v & w' & Hret).
  destruct (user_attempted_ids_snapshot _ _ _ _ _ _ _ _ _
              (list_elem_of_here _ _) Hsound Hret)
    as (w0 & w0' & Hin & Htime & Hfresh & Hmiss & Hcall).
  rewrite (user_attempted_ids_miss_eq _ _ Hmiss) in Hcall.
  injection Hcall as <- _.
  eexists _, w', w0. split; [exact Hret|]. repeat split; try done; try lia.
  intros pid a Hm. apply dict_of_lookup in Hm.
  unfold attempted_query in Hm.
  apply list_elem_of_omap in Hm as (pid0 & _ & Hrow).
  apply attempted_row_Some in Hrow as (p & a' & Heq & Hfacts).
  injection Heq as -> ->. by exists p.
Qed.
End Runs.

(** ** get_related_problems: the list and its life in the cache *)

Lemma mapM_Problem_get_path ids w o w' :
  mapM Problem_get ids w = (o, w') → ML_OUTPUT_PATH w' = ML_OUTPUT_PATH w.
Proof.
  revert w o w'. induction ids as [|i ids IH]; intros w o w' Hm; cbn [mapM] in Hm.
  - by injection Hm as <- <-.
  - unfold bind in Hm. rewrite Problem_get_eq in Hm.
    destruct (Problem_by_id w i) as [p|]; [|by injection Hm as <- <-].
    destruct (mapM Problem_get ids _) as [[ps'|err] w1] eqn:Hrest;
      apply IH in Hrest; by injection Hm as <- <-.
Qed.

Lemma mapM_Problem_get_rows ids w ps w' :
  mapM Problem_get ids w = (Ok ps, w') →
  ∀ p, p ∈ ps → Problem_by_id w (Problem.id p) = Some p.
Proof.
  revert w ps w'. induction ids as [|i ids IH]; intros w ps w' Hm; cbn [mapM] in Hm.
  - injection Hm as <- _. intros p Hp. by apply elem_of_nil in Hp.
  - unfold bind in Hm. rewrite Problem_get_eq in Hm.
    destruct (Problem_by_id w i) as [q|] eqn:Hq; [|done].
    destruct (mapM Problem_get ids _) as [[ps'|err] w1] eqn:Hrest; [|done].
    injection Hm as <- _. intros p Hp. apply elem_of_cons in Hp as [->|Hp].
    + by rewrite (Problem_by_id_id _ _ _ Hq).
    + by apply (IH _ _ _ Hrest).
Qed.

Lemma Problem_by_id_elem w i p : Problem_by_id w i = Some p → p ∈ problems w.
Proof.
  unfold Problem_by_id. intros Hfind. apply find_some in Hfind as [Hin _].
  by apply list_elem_of_In.
Qed.

Lemma NoDup_fmap_eq {A B} (f : A → B) (l : list A) x y :
  NoDup (f <$> l) → x ∈ l → y ∈ l → f x = f y → x = y.
Proof.
  induction l as [|z l IH]; intros Hnd Hx Hy Hf; [by apply elem_of_nil in Hx|].
  rewrite fmap_cons in Hnd. apply NoDup_cons in Hnd as [Hz Hnd].
  apply elem_of_cons in Hx as [->|Hx], Hy as [->|Hy]; [done| | |by apply IH].
  - exfalso. apply Hz. rewrite Hf. apply list_elem_of_fmap. by exists y.
  - exfalso. apply Hz. rewrite <- Hf. apply list_elem_of_fmap. by exists x.
Qed.

Lemma list_slice_to_sublist {A} limit (l : list A) :
  list_slice_to limit l `sublist_of` l.
Proof. unfold list_slice_to. case_decide; apply sublist_take. Qed.

Section RecommenderRuns.
Variable is_visible : Z → Problem.t → bool.
Variable problem_neighbors : Problem.t → list Z → string → Z → list (Qc * Z).
Variable shuffle : string → list Z → list Z.
Variable strftime_dmY : Z → string.

Abbreviation recommend :=
  (get_related_problems is_visible problem_neighbors shuffle strftime_dmY).
Abbreviation runs :=
  (run is_visible problem_neighbors shuffle strftime_dmY).

(** What a miss that returns leaves behind. *)
Lemma get_related_problems_miss_stored profile problem limit w v w1 :
  cache_lookup (related_problems_key profile problem) w = None →
  recommend (Some profile) problem limit w = (Ok (Some v), w1) →
  (∃ res, v = VProblems res)
  ∧ cache w1 !! related_problems_key profile problem
    = Some (mk_entry v (clock w + 21600))
  ∧ clock w1 = clock w
  ∧ ML_OUTPUT_PATH w1 = ML_OUTPUT_PATH w
  ∧ path_set (ML_OUTPUT_PATH w) = true.
Proof.
  intros Hmiss Hret. unfold get_related_problems in Hret.
  unfold bind at 1, read_ML_OUTPUT_PATH in Hret.
  destruct (path_set (ML_OUTPUT_PATH w)) eqn:Hpath; simpl in Hret; [|done].
  unfold bind at 1, cache_get in Hret. rewrite Hmiss in Hret.
  unfold bind at 1 in Hret.
  destruct (user_completed_ids_ok profile w) as (v0 & w0 & Hcompleted & _ & Ht0 & Hp0).
  rewrite Hcompleted in Hret.
  unfold bind at 1, lift_outcome in Hret.
  destruct (id__in v0) as [completed|err]; [|done].
  unfold bind, cf_problem_neighbors, db_select, read_clock in Hret.
  unfold bind in Hret.
  match type of Hret with
  | context [mapM Problem_get ?l ?w0] =>
      destruct (mapM Problem_get l w0) as [[ps|err] w2] eqn:Hget; [|done];
        pose proof (mapM_Problem_get_frame _ _ _ _ Hget) as [Hc2 Ht2];
        pose proof (mapM_Problem_get_path _ _ _ _ Hget) as Hp2;
        simpl in Hc2, Ht2, Hp2
  end.
  simpl in Hret. injection Hret as <- <-. simpl.
  rewrite lookup_insert_eq, Ht2, Ht0, Hp2, Hp0.
  split; [by eexists|done].
Qed.

(** X17: a list that [get_related_problems] has computed is served again
    for 21600 seconds to every call for the same profile and problem,
    whatever its [limit] and whatever happens to the tables, and without a
    query of the database or of the model. *)
Theorem get_related_problems_ttl profile problem limit w v w1 dt limit' ps ss :
  cache_lookup (related_problems_key profile problem) w = None →
  recommend (Some profile) problem limit w = (Ok (Some v), w1) →
  0 ≤ dt < 21600 →
  recommend (Some profile) problem limit' (set_tables ps ss (tick dt w1))
  = (Ok (Some v), set_tables ps ss (tick dt w1)).
Proof.
  intros Hmiss Hret Hdt.
  destruct (get_related_problems_miss_stored _ _ _ _ _ _ Hmiss Hret)
    as (_ & Hstored & Ht & Hp & Hpath).
  apply get_related_problems_hit.
  - simpl. by rewrite Hp.
  - rewrite <- Ht in Hstored.
    rewrite (cache_lookup_later _ _ _ _ _ _ _ Hstored).
    by rewrite bool_decide_eq_true_2 by lia.
Qed.

(** The similarity model ranks the candidates it is given; Python's
    shuffle permutes its argument. *)
Hypothesis neighbors_among_candidates :
  ∀ problem candidates metric limit i,
    i ∈ (problem_neighbors problem candidates metric limit).*2 → i ∈ candidates.
Hypothesis shuffle_permutes : ∀ seed l, shuffle seed l ≡ₚ l.

(** X18: the list computed on a miss names no problem twice, and, the ids
    of the table being distinct, every problem of the list is a row of the
    table that the profile's user may see. *)
Theorem get_related_problems_distinct_visible profile problem limit w res w' :
  cache_lookup (related_problems_key profile problem) w = None →
  NoDup (Problem.id <$> problems w) →
  recommend (Some profile) problem limit w = (Ok (Some (VProblems res)), w') →
  NoDup (Problem.id <$> res)
  ∧ ∀ p, p ∈ res →
      p ∈ problems w ∧ is_visible (Profile.user profile) p = true.
Proof.
  intros Hmiss Hnd Hret. unfold get_related_problems in Hret.
  unfold bind at 1, read_ML_OUTPUT_PATH in Hret.
  destruct (path_set (ML_OUTPUT_PATH w)); simpl in Hret; [|done].
  unfold bind at 1, cache_get in Hret. rewrite Hmiss in Hret.
  unfold bind at 1 in Hret.
  destruct (user_completed_ids_ok profile w) as (v0 & w0 & Hcompleted & Hps0 & _).
  rewrite Hcompleted in Hret.
  unfold bind at 1, lift_outcome in Hret.
  destruct (id__in v0) as [completed|err]; [|done].
  unfold bind, cf_problem_neighbors, db_select, read_clock in Hret.
  unfold bind in Hret.
  match type of Hret with
  | context [mapM Problem_get ?l ?w0] =>
      destruct (mapM Problem_get l w0) as [[ps|err] w2] eqn:Hget; [|done]
  end.
  simpl in Hret. injection Hret as <- _.
  pose proof (mapM_Problem_get _ _ _ _ Hget) as Hids.
  pose proof (mapM_Problem_get_rows _ _ _ _ Hget) as Hrows.
  split.
  - rewrite Hids. eapply sublist_NoDup; [|apply list_slice_to_sublist].
    rewrite shuffle_permutes. apply NoDup_elements.
  - intros p Hp. specialize (Hrows p Hp).
    apply Problem_by_id_elem in Hrows. simpl in Hrows. rewrite Hps0 in Hrows.
    split; [done|].
    assert (Hi : Problem.id p ∈ Problem.id <$> ps).
    { apply list_elem_of_fmap. by exists p. }
    rewrite Hids in Hi. apply list_slice_to_subseteq in Hi.
    rewrite shuffle_permutes in Hi.
    apply elem_of_elements, elem_of_list_to_set in Hi.
    rewrite fmap_app in Hi.
    assert (Hset : Problem.id p ∈ related_problemset is_visible profile problem
                                    completed w).
    { apply elem_of_app in Hi as [Hi|Hi];
        apply neighbors_among_candidates in Hi; unfold related_problemset in *;
        simpl in Hi; by rewrite Hps0 in Hi. }
    unfold related_problemset in Hset.
    apply list_elem_of_filter in Hset as [_ Hset].
    apply list_elem_of_filter in Hset as [_ Hset].
    apply list_elem_of_fmap in Hset as (q & Hid & Hq).
    apply list_elem_of_filter in Hq as [Hvis Hq].
    by rewrite (NoDup_fmap_eq Problem.id (problems w) p q Hnd Hrows Hq Hid).
Qed.

End RecommenderRuns.

(** ** get_result_data: foreign keys, keyword filters *)

(** X20: a count under a key that is none of the ten verdict codes enters
    [total] and no category: with such a key the total of the histogram
    differs from the sum of its categories by that count. *)
Theorem _get_result_data_uncategorised results k n :
  k ∉ category_keys →
  categories (_get_result_data (<[k := n]> results))
  = categories (_get_result_data results)
  ∧ total (_get_result_data (<[k := n]> results))
    = total (_get_result_data results) - default 0 (results !! k) + n.
Proof.
  intros Hk. rewrite !_get_result_data_eq.
  cbn [categories total]. split; [|apply sum_values_insert].
  unfold category_keys in Hk.
  rewrite !lookup_insert_ne; [done|..];
    intros ->; apply Hk; repeat constructor.
Qed.



(** ** Cache keys of the helpers *)




(** ** How the helpers act on each other *)

(** What a helper returns depends on the tables, the clock and the entry
    of its own key. *)
Lemma user_completed_ids_fst profile w1 w2 :
  problems w1 = problems w2 → submissions w1 = submissions w2 →
  cache_lookup (user_complete_key profile) w1
  = cache_lookup (user_complete_key profile) w2 →
  fst (user_completed_ids profile w1) = fst (user_completed_ids profile w2).
Proof.
  intros Hps Hss Hc.
  destruct (cache_lookup (user_complete_key profile) w2) as [v|] eqn:Hc2.
  - by rewrite (user_completed_ids_hit _ _ _ Hc), (user_completed_ids_hit _ _ _ Hc2).
  - rewrite (user_completed_ids_miss_eq _ _ Hc), (user_completed_ids_miss_eq _ _ Hc2).
    cbn [fst]. unfold completed_query, completed_filter, problem_of, Problem_by_id.
    by rewrite Hps, Hss.
Qed.

Lemma user_attempted_ids_fst profile w1 w2 :
  problems w1 = problems w2 → submissions w1 = submissions w2 →
  cache_lookup (user_attempted_key profile) w1
  = cache_lookup (user_attempted_key profile) w2 →
  fst (user_attempted_ids profile w1) = fst (user_attempted_ids profile w2).
Proof.
  intros Hps Hss Hc.
  destruct (cache_lookup (user_attempted_key profile) w2) as [v|] eqn:Hc2.
  - by rewrite (user_attempted_ids_hit _ _ _ Hc), (user_attempted_ids_hit _ _ _ Hc2).
  - rewrite (user_attempted_ids_miss_eq _ _ Hc), (user_attempted_ids_miss_eq _ _ Hc2).
    cbn [fst]. unfold attempted_query, attempted_row, user_submissions, problem_of,
      Problem_by_id.
    by rewrite Hps, Hss.
Qed.

Lemma hot_problems_fst duration limit w1 w2 :
  problems w1 = problems w2 → submissions w1 = submissions w2 →
  clock w1 = clock w2 →
  cache_lookup (hot_problems_key duration limit) w1
  = cache_lookup (hot_problems_key duration limit) w2 →
  fst (hot_problems duration limit w1) = fst (hot_problems duration limit w2).
Proof.
  intros Hps Hss Ht Hc.
  destruct (cache_lookup (hot_problems_key duration limit) w2) as [v|] eqn:Hc2.
  - by rewrite (hot_problems_hit _ _ _ _ Hc), (hot_problems_hit _ _ _ _ Hc2).
  - rewrite (hot_problems_miss_eq _ _ _ Hc), (hot_problems_miss_eq _ _ _ Hc2).
    assert (Hcand : hot_candidates w1 duration = hot_candidates w2 duration).
    { unfold hot_candidates, annotate, get_public_problems, window_submissions.
      by rewrite Hps, Hss, Ht. }
    unfold hot_qs0, hot_query. rewrite Hcand.
    destruct (merge_sort _ _) as [|mx qs0]; [done|]. by case_decide.
Qed.

(** A helper leaves the tables and the clock as they are and writes at
    most the entry of its own key. *)
Lemma user_completed_ids_effect profile w :
  problems (snd (user_completed_ids profile w)) = problems w
  ∧ submissions (snd (user_completed_ids profile w)) = submissions w
  ∧ clock (snd (user_completed_ids profile w)) = clock w
  ∧ ∀ key, key ≠ user_complete_key profile →
           cache_lookup key (snd (user_completed_ids profile w)) = cache_lookup key w.
Proof.
  destruct (cache_lookup (user_complete_key profile) w) as [v|] eqn:Hc.
  - by rewrite (user_completed_ids_hit _ _ _ Hc).
  - rewrite (user_completed_ids_miss_eq _ _ Hc). repeat split.
    intros key Hne. unfold cache_lookup; simpl. by rewrite lookup_insert_ne.
Qed.

Lemma user_attempted_ids_effect profile w :
  problems (snd (user_attempted_ids profile w)) = problems w
  ∧ submissions (snd (user_attempted_ids profile w)) = submissions w
  ∧ clock (snd (user_attempted_ids profile w)) = clock w
  ∧ ∀ key, key ≠ user_attempted_key profile →
           cache_lookup key (snd (user_attempted_ids profile w)) = cache_lookup key w.
Proof.
  destruct (cache_lookup (user_attempted_key profile) w) as [v|] eqn:Hc.
  - by rewrite (user_attempted_ids_hit _ _ _ Hc).
  - rewrite (user_attempted_ids_miss_eq _ _ Hc). repeat split.
    intros key Hne. unfold cache_lookup; simpl. by rewrite lookup_insert_ne.
Qed.

Lemma hot_problems_effect duration limit w :
  problems (snd (hot_problems duration limit w)) = problems w
  ∧ submissions (snd (hot_problems duration limit w)) = submissions w
  ∧ clock (snd (hot_problems duration limit w)) = clock w
  ∧ ∀ key, key ≠ hot_problems_key duration limit →
           cache_lookup key (snd (hot_problems duration limit w)) = cache_lookup key w.
Proof.
  destruct (cache_lookup (hot_problems_key duration limit) w) as [v|] eqn:Hc.
  - by rewrite (hot_problems_hit _ _ _ _ Hc).
  - rewrite (hot_problems_miss_eq _ _ _ Hc).
    destruct (hot_qs0 duration w) as [|mx qs0]; [done|].
    case_decide; [done|]. repeat split.
    intros key Hne. unfold cache_lookup; simpl. by rewrite lookup_insert_ne.
Qed.

(** X23: the three caching helpers on submissions do not act on each
    other: what one of them returns is the same before and after a call of
    another, and the histogram of [get_result_data] is the same before and
    after a call of any of them. *)
Theorem helpers_do_not_interfere p q duration limit args kwargs w :
  fst (user_attempted_ids q (snd (user_completed_ids p w)))
  = fst (user_attempted_ids q w)
  ∧ fst (hot_problems duration limit (snd (user_completed_ids p w)))
    = fst (hot_problems duration limit w)
  ∧ fst (user_completed_ids p (snd (user_attempted_ids q w)))
    = fst (user_completed_ids p w)
  ∧ fst (hot_problems duration limit (snd (user_attempted_ids q w)))
    = fst (hot_problems duration limit w)
  ∧ fst (user_completed_ids p (snd (hot_problems duration limit w)))
    = fst (user_completed_ids p w)
  ∧ fst (user_attempted_ids q (snd (hot_problems duration limit w)))
    = fst (user_attempted_ids q w)
  ∧ fst (get_result_data args kwargs (snd (user_completed_ids p w)))
    = fst (get_result_data args kwargs w)
  ∧ fst (get_result_data args kwargs (snd (user_attempted_ids q w)))
    = fst (get_result_data args kwargs w)
  ∧ fst (get_result_data args kwargs (snd (hot_problems duration limit w)))
    = fst (get_result_data args kwargs w).
Proof.
  destruct (user_completed_ids_effect p w) as (Hps1 & Hss1 & Ht1 & Hc1).
  destruct (user_attempted_ids_effect q w) as (Hps2 & Hss2 & Ht2 & Hc2).
  destruct (hot_problems_effect duration limit w) as (Hps3 & Hss3 & Ht3 & Hc3).
  assert (Hdata : ∀ w', submissions w' = submissions w →
            fst (get_result_data args kwargs w') = fst (get_result_data args kwargs w)).
  { intros w' Hss. unfold get_result_data, bind. destruct args as [|qs rest].
    - unfold lift_outcome. rewrite Hss.
      by destruct (filter_kwargs kwargs (submissions w)).
    - by case_decide. }
  repeat match goal with |- _ ∧ _ => split end.
  - apply user_attempted_ids_fst; [done..|]. apply Hc1. intros Hkey. discriminate Hkey.
  - apply hot_problems_fst; [done..|]. apply Hc1. intros Hkey. discriminate Hkey.
  - apply user_completed_ids_fst; [done..|]. apply Hc2. intros Hkey. discriminate Hkey.
  - apply hot_problems_fst; [done..|]. apply Hc2. intros Hkey. discriminate Hkey.
  - apply user_completed_ids_fst; [done..|]. apply Hc3. intros Hkey. discriminate Hkey.
  - apply user_attempted_ids_fst; [done..|]. apply Hc3. intros Hkey. discriminate Hkey.
  - by apply Hdata.
  - by apply Hdata.
  - by apply Hdata.
Qed.

(** X24: the ids of the problem table being distinct, no problem comes
    twice in the sequence that [hot_problems] computes. *)
Theorem hot_problems_distinct duration limit w rows w' :
  cache_lookup (hot_problems_key duration limit) w = None →
  NoDup (Problem.id <$> problems w) →
  hot_problems duration limit w = (Ok (VHot rows), w') →
  NoDup ((λ r, Problem.id (hot_problem r)) <$> rows).
Proof.
  intros Hmiss Hnd Hret.
  destruct (hot_problems_miss_rows _ _ _ _ _ Hmiss Hret)
    as [[-> _]|(mx & _ & _ & ->)]; [constructor|].
  unfold hot_query, slice_to.
  eapply sublist_NoDup; [|apply fmap_sublist, sublist_take].
  rewrite merge_sort_Permutation.
  rewrite <- list_fmap_compose.
  eapply sublist_NoDup; [|apply fmap_sublist, sublist_filter].
  unfold hot_candidates, get_public_problems. rewrite <- list_fmap_compose.
  eapply sublist_NoDup; [exact Hnd|].
  apply (fmap_sublist Problem.id).
  etrans; apply sublist_filter.
Qed.

Section RecommenderAndCompleted.
Variable is_visible : Z → Problem.t → bool.
Variable problem_neighbors : Problem.t → list Z → string → Z → list (Qc * Z).
Variable shuffle : string → list Z → list Z.
Variable strftime_dmY : Z → string.

Abbreviation recommend :=
  (get_related_problems is_visible problem_neighbors shuffle strftime_dmY).

Hypothesis neighbors_among_candidates :
  ∀ problem candidates metric limit i,
    i ∈ (problem_neighbors problem candidates metric limit).*2 → i ∈ candidates.
Hypothesis shuffle_permutes : ∀ seed l, shuffle seed l ≡ₚ l.

Lemma user_completed_ids_then_cached profile w v w1 :
  user_completed_ids profile w = (Ok v, w1) →
  cache_lookup (user_complete_key profile) w1 = Some v.
Proof.
  intros Hret.
  destruct (cache_lookup (user_complete_key profile) w) as [v0|] eqn:Hc.
  - rewrite (user_completed_ids_hit _ _ _ Hc) in Hret. by injection Hret as <- <-.
  - rewrite (user_completed_ids_miss_eq _ _ Hc) in Hret. injection Hret as <- <-.
    apply (cache_lookup_set_eq _ _ 86400 (push_query (DbQuery "submission") w)). lia.
Qed.

(** X25: when [get_related_problems] has computed a list, the completed
    set of the profile that it consulted is in the cache: the next call of
    [user_completed_ids] for the profile sends no query, and the set it
    returns contains no problem of the list. *)
Theorem get_related_problems_leaves_completed profile problem limit w res w' :
  cache_lookup (related_problems_key profile problem) w = None →
  recommend (Some profile) problem limit w = (Ok (Some (VProblems res)), w') →
  ∃ v completed,
    user_completed_ids profile w' = (Ok v, w')
    ∧ id__in v = Ok completed
    ∧ ∀ p, p ∈ res → Problem.id p ∉ completed.
Proof.
  intros Hmiss Hret.
  destruct (get_related_problems_miss is_visible problem_neighbors shuffle
              strftime_dmY neighbors_among_candidates shuffle_permutes
              _ _ _ _ _ _ Hmiss Hret)
    as (v & w1 & completed & ids & Hcompleted & Hin & Hres & Hids).
  exists v, completed. split; [|split; [done|]].
  - apply user_completed_ids_hit.
    pose proof (user_completed_ids_then_cached _ _ _ _ Hcompleted) as Hcached.
    unfold get_related_problems in Hret.
    unfold bind at 1, read_ML_OUTPUT_PATH in Hret.
    destruct (path_set (ML_OUTPUT_PATH w)); simpl in Hret; [|done].
    unfold bind at 1, cache_get in Hret. rewrite Hmiss in Hret.
    unfold bind at 1 in Hret. rewrite Hcompleted in Hret.
    unfold bind at 1, lift_outcome in Hret. rewrite Hin in Hret.
    unfold bind, cf_problem_neighbors, db_select, read_clock in Hret.
    unfold bind in Hret.
    match type of Hret with
    | context [mapM Problem_get ?l ?w0] =>
        destruct (mapM Problem_get l w0) as [[ps|err] w2] eqn:Hget; [|done];
          apply mapM_Problem_get_frame in Hget as [Hc2 Ht2]; simpl in Hc2, Ht2
    end.
    simpl in Hret. injection Hret as _ <-.
    unfold cache_lookup in *. simpl.
    rewrite lookup_insert_ne by (intros Hkey; discriminate Hkey).
    by rewrite Hc2, Ht2.
  - intros p Hp. apply Hids. apply (list_slice_to_subseteq limit).
    rewrite <- Hres. apply list_elem_of_fmap. by exists p.
Qed.
End RecommenderAndCompleted.

(** ** The further theorems at work *)

Lemma editable_problems_ids_witness :
  ∃ editable w',
    user_editable_ids staff_example (User.profile alice_user) world_fresh
    = (Ok editable, w')
    ∧ list_to_set (Problem.id <$> editable_problems staff_example alice_user None
                                    world_fresh) = editable.
Proof.
  apply (editable_problems_ids staff_example alice_user world_fresh); reflexivity.
Defined.


Lemma contest_completed_ids_miss_witness :
  ∃ S w',
    contest_completed_ids entrant contest_world = (Ok (Contest.Base (VIdSet S)), w')
    ∧ (∀ pid, pid ∈ S ↔
              ∃ cs s cp,
                cs ∈ Contest.contest_submissions contest_world
                ∧ ContestSubmission.participation cs = Participation.id entrant
                ∧ submission_of contest_world cs = Some s ∧ Submission.result s = AC
                ∧ contest_problem_of contest_world cs = Some cp
                ∧ ContestSubmission.points cs = ContestProblem.points cp
                ∧ ContestProblem.problem cp = pid)
    ∧ Contest.cache_lookup (contest_complete_key entrant) w'
      = Some (Contest.Base (VIdSet S)).
Proof.
  apply (contest_completed_ids_miss entrant contest_world). reflexivity.
Defined.

Lemma contest_completed_ids_call :
  contest_completed_ids entrant contest_world
  = (Ok (Contest.Base (VIdSet {[1]})), snd (contest_completed_ids entrant contest_world)).
Proof. vm_compute. reflexivity. Defined.

Lemma contest_completed_ids_ttl_witness :
  (100 < 86400 →
   contest_completed_ids entrant
     (Contest.set_tables [] [] []
        (Contest.tick 100 (snd (contest_completed_ids entrant contest_world))))
   = (Ok (Contest.Base (VIdSet {[1]})),
      Contest.set_tables [] [] []
        (Contest.tick 100 (snd (contest_completed_ids entrant contest_world)))))
  ∧ (86400 ≤ 100 →
     ∃ w2,
       contest_completed_ids entrant
         (Contest.set_tables [] [] []
            (Contest.tick 100 (snd (contest_completed_ids entrant contest_world))))
       = (Ok (Contest.Base
                (VIdSet (list_to_set
                           (contest_completed_query entrant
                              (Contest.set_tables [] [] []
                                 (Contest.tick 100
                                    (snd (contest_completed_ids entrant
                                            contest_world)))))))),
          w2)).
Proof.
  apply (contest_completed_ids_ttl entrant contest_world).
  - reflexivity.
  - apply contest_completed_ids_call.
  - lia.
Defined.

Lemma contest_attempted_ids_entries_witness :
  ∃ m w',
    contest_attempted_ids entrant contest_world = (Ok (Contest.Attempted m), w')
    ∧ ∀ pid a, m !! pid = Some a →
        (contest_achieved_points a < contest_max_points a)%Qc
        ∧ (∃ cs cp,
              cs ∈ Contest.contest_submissions contest_world
              ∧ ContestSubmission.participation cs = Participation.id entrant
              ∧ contest_problem_of contest_world cs = Some cp
              ∧ ContestProblem.problem cp = pid
              ∧ ContestProblem.points cp = contest_max_points a
              ∧ ContestSubmission.points cs = contest_achieved_points a)
        ∧ (∀ cs cp,
              cs ∈ Contest.contest_submissions contest_world →
              ContestSubmission.participation cs = Participation.id entrant →
              contest_problem_of contest_world cs = Some cp →
              ContestProblem.problem cp = pid →
              ContestProblem.points cp = contest_max_points a →
              (ContestSubmission.points cs ≤ contest_achieved_points a)%Qc).
Proof.
  apply (contest_attempted_ids_entries entrant contest_world). reflexivity.
Defined.

Lemma contest_completed_attempted_disjoint_witness :
  ∃ S m w1 w2,
    contest_completed_ids entrant contest_world = (Ok (Contest.Base (VIdSet S)), w1)
    ∧ contest_attempted_ids entrant w1 = (Ok (Contest.Attempted m), w2)
    ∧ ∀ pid, pid ∈ S → m !! pid = None.
Proof.
  apply (contest_completed_attempted_disjoint entrant contest_world).
  - reflexivity.
  - reflexivity.
  - intros cp cp' Hcp Hcp' _. simpl in Hcp, Hcp'.
    apply elem_of_cons in Hcp as [->|Hcp];
      [|apply list_elem_of_singleton in Hcp as ->];
      (apply elem_of_cons in Hcp' as [->|Hcp'];
       [|apply list_elem_of_singleton in Hcp' as ->]); reflexivity.
Defined.

Lemma user_attempted_ids_keys_witness :
  ∃ m w',
    user_attempted_ids alice world_partial = (Ok (VAttempted m), w')
    ∧ ∀ pid, is_Some (m !! pid) ↔
        ∃ p, Problem_by_id world_partial pid = Some p
             ∧ (∃ s, s ∈ submissions world_partial
                     ∧ Submission.user s = Profile.id alice
                     ∧ Submission.problem s = pid)
             ∧ (∀ s, s ∈ submissions world_partial →
                     Submission.user s = Profile.id alice →
                     Submission.problem s = pid →
                     (Submission.points s < Problem.points p)%Qc).
Proof.
  apply (user_attempted_ids_keys alice world_partial). reflexivity.
Defined.

Lemma user_completed_ids_partial_call :
  user_completed_ids alice world_partial
  = (Ok (VIdSet ∅), snd (user_completed_ids alice world_partial)).
Proof. vm_compute. reflexivity. Defined.

Lemma user_completed_ids_ttl_witness :
  (100 < 86400 →
   user_completed_ids alice
     (set_tables [aplusb] [full_solve]
        (tick 100 (snd (user_completed_ids alice world_partial))))
   = (Ok (VIdSet ∅),
      set_tables [aplusb] [full_solve]
        (tick 100 (snd (user_completed_ids alice world_partial)))))
  ∧ (86400 ≤ 100 →
     ∃ w2,
       user_completed_ids alice
         (set_tables [aplusb] [full_solve]
            (tick 100 (snd (user_completed_ids alice world_partial))))
       = (Ok (VIdSet (list_to_set
                        (completed_query alice
                           (set_tables [aplusb] [full_solve]
                              (tick 100
                                 (snd (user_completed_ids alice world_partial))))))),
          w2)).
Proof.
  apply (user_completed_ids_ttl alice world_partial).
  - reflexivity.
  - apply user_completed_ids_partial_call.
  - lia.
Defined.

Lemma hot_problems_negative_limit_witness :
  (hot_candidates world_tied 3600 = [] →
   ∃ w', hot_problems 3600 (-1) world_tied = (Ok (VHot []), w')
         ∧ cache w' = cache world_tied)
  ∧ (∀ p s, p ∈ problems world_tied → Problem.is_public p = true →
            s ∈ submissions world_tied → Submission.problem s = Problem.id p →
            clock world_tied - 3600 < Submission.date s →
            ∃ w', hot_problems 3600 (-1) world_tied
                  = (Raise (AssertionError "Negative indexing is not supported."), w')
                  ∧ cache w' = cache world_tied).
Proof.
  apply (hot_problems_negative_limit 3600 (-1) world_tied); [reflexivity|lia].
Defined.

Lemma hot_problems_tied_call limit :
  0 ≤ limit →
  cache_lookup (hot_problems_key 3600 limit) world_tied = None →
  hot_problems 3600 limit world_tied
  = (Ok (VHot (hot_query 3600 limit 2 world_tied)),
     snd (cache_set (hot_problems_key 3600 limit)
            (VHot (hot_query 3600 limit 2 world_tied)) 900
            (push_query (DbQuery "problem")
               (push_query (DbQuery "problem") world_tied)))).
Proof.
  intros Hlimit Hmiss. rewrite hot_problems_miss_eq by done.
  rewrite hot_qs0_tied. by rewrite decide_False by lia.
Defined.


Lemma hot_problems_lone_submitters_witness :
  ∃ w', hot_problems 3600 10 world_partial = (Ok (VHot []), w')
        ∧ cache_lookup (hot_problems_key 3600 10) w' = Some (VHot []).
Proof.
  apply (hot_problems_lone_submitters 3600 10 world_partial).
  - reflexivity.
  - lia.
  - vm_compute. discriminate.
  - intros p Hp _. apply list_elem_of_singleton in Hp as ->. vm_compute. lia.
Defined.


Lemma hot_problems_rows_wellformed_witness :
  ∃ rows w' w0,
    hot_problems 3600 10 world_tied_cached = (Ok (VHot rows), w')
    ∧ w0 ∈ world_tied_cached :: past_tied_cached
    ∧ clock w0 ≤ clock world_tied_cached < clock w0 + 900
    ∧ ∀ r, r ∈ rows →
        hot_problem r ∈ problems w0
        ∧ Problem.is_public (hot_problem r) = true
        ∧ 0 ≤ ac_volume r ≤ submission_volume r
        ∧ submission_volume r
          ≤ Z.of_nat (length (window_submissions w0 3600 (hot_problem r)))
        ∧ unique_user_count r
          ≤ Z.of_nat (length (window_submissions w0 3600 (hot_problem r))).
Proof.
  apply (hot_problems_rows_wellformed all_visible first_candidates keep_order
           some_day 3600 10 world_tied_cached past_tied_cached).
  - apply run_tied_cached.
  - lia.
Defined.

Lemma user_attempted_ids_entries_witness :
  ∃ m w' w0,
    user_attempted_ids alice world_partial_cached = (Ok (VAttempted m), w')
    ∧ w0 ∈ world_partial_cached :: past_partial_cached
    ∧ clock w0 ≤ clock world_partial_cached < clock w0 + 86400
    ∧ (cache_lookup (user_attempted_key alice) world_partial_cached = None →
       w0 = world_partial_cached)
    ∧ ∀ pid a, m !! pid = Some a →
        ∃ p, Problem_by_id w0 pid = Some p
          ∧ max_points a = Problem.points p
          ∧ attempt_code a = Problem.code p
          ∧ attempt_name a = Problem.name p
          ∧ (achieved_points a < max_points a)%Qc
          ∧ (∃ s, s ∈ submissions w0 ∧ Submission.user s = Profile.id alice
                  ∧ Submission.problem s = pid
                  ∧ Submission.points s = achieved_points a)
          ∧ (∀ s, s ∈ submissions w0 → Submission.user s = Profile.id alice →
                  Submission.problem s = pid →
                  (Submission.points s ≤ achieved_points a)%Qc)
          ∧ (∃ s, s ∈ submissions w0 ∧ Submission.user s = Profile.id alice
                  ∧ Submission.problem s = pid
                  ∧ Submission.id s = last_submission a)
          ∧ (∀ s, s ∈ submissions w0 → Submission.user s = Profile.id alice →
                  Submission.problem s = pid →
                  Submission.id s ≤ last_submission a).
Proof.
  apply (user_attempted_ids_entries all_visible first_candidates keep_order
           some_day alice world_partial_cached past_partial_cached).
  apply run_partial_cached.
Defined.

Lemma related_fresh_call :
  related (Some alice) aplusb 8 world_fresh
  = (Ok (Some (VProblems [sorting; hello])),
     snd (related (Some alice) aplusb 8 world_fresh)).
Proof. vm_compute. reflexivity. Defined.

Lemma get_related_problems_ttl_witness :
  related (Some alice) aplusb 1
    (set_tables [] [] (tick 100 (snd (related (Some alice) aplusb 8 world_fresh))))
  = (Ok (Some (VProblems [sorting; hello])),
     set_tables [] [] (tick 100 (snd (related (Some alice) aplusb 8 world_fresh)))).
Proof.
  apply (get_related_problems_ttl all_visible first_candidates keep_order some_day
           alice aplusb 8 world_fresh).
  - reflexivity.
  - apply related_fresh_call.
  - lia.
Defined.

Lemma get_related_problems_distinct_visible_witness :
  NoDup (Problem.id <$> [sorting; hello])
  ∧ ∀ p, p ∈ [sorting; hello] →
      p ∈ problems world_fresh ∧ all_visible (Profile.user alice) p = true.
Proof.
  apply (get_related_problems_distinct_visible all_visible first_candidates
           keep_order some_day first_candidates_among keep_order_permutes
           alice aplusb 8 world_fresh [sorting; hello]
           (snd (related (Some alice) aplusb 8 world_fresh))).
  - reflexivity.
  - apply (bool_decide_unpack _). vm_compute. exact I.
  - apply related_fresh_call.
Defined.


Lemma _get_result_data_uncategorised_witness :
  categories (_get_result_data (<["SC" := 3]> accepted_twice))
  = categories (_get_result_data accepted_twice)
  ∧ total (_get_result_data (<["SC" := 3]> accepted_twice))
    = total (_get_result_data accepted_twice) - default 0 (accepted_twice !! "SC") + 3.
Proof.
  apply (_get_result_data_uncategorised accepted_twice "SC" 3).
  apply (bool_decide_unpack _). vm_compute. exact I.
Defined.


Lemma hot_problems_distinct_witness :
  NoDup ((λ r, Problem.id (hot_problem r)) <$> hot_query 3600 10 2 world_tied).
Proof.
  eapply (hot_problems_distinct 3600 10 world_tied).
  - reflexivity.
  - apply (bool_decide_unpack _). vm_compute. exact I.
  - apply hot_problems_tied_call; [lia|reflexivity].
Defined.

Lemma get_related_problems_leaves_completed_witness :
  ∃ v completed,
    user_completed_ids alice (snd (related (Some alice) aplusb 8 world_fresh))
    = (Ok v, snd (related (Some alice) aplusb 8 world_fresh))
    ∧ id__in v = Ok completed
    ∧ ∀ p, p ∈ [sorting; hello] → Problem.id p ∉ completed.
Proof.
  apply (get_related_problems_leaves_completed all_visible first_candidates
           keep_order some_day first_candidates_among keep_order_permutes
           alice aplusb 8 world_fresh).
  - reflexivity.
  - apply related_fresh_call.
Defined.
